(** * vocab.py: vocabulary, vector table and neighbour search

    A shallow embedding of [vocab.py] and the properties of its
    vocabulary builder ([Vocab]), its embedding-file loader ([Vectors])
    and the module-level neighbour search built on them.

    Python values are modelled as follows.
    - [str] is [string] (a byte sequence; the byte-wise order of UTF-8
      text is the code-point order Python compares [str] with);
    - [int] is [Z] where the caller chooses the value ([min_freq],
      [max_size], [n], counts) and [nat] for lengths and indices;
    - [dict], [Counter] and [defaultdict] are [gmap]s, with the
      insertion performed by a defaulting lookup written out;
    - an exception is a value of [Py.exn] carried by [Py.result];
    - an object mutated in place is passed in and returned. *)

From Stdlib Require Import ZArith Ascii.
From Stdlib Require OrderedTypeEx.
From stdpp Require Import gmap strings list fin_maps sorting.

(** ** The Python runtime the module relies on *)

Module Py.

Inductive exn : Type :=
| KeyError (key : string)
| IndexError
| TypeError
| ValueError (text : string)
| RuntimeError (word : string) (found : nat) (dim : option nat)
| TorchError.
(** [RuntimeError] carries what line 257 reports; [TorchError] is the
    [RuntimeError] that torch raises for shapes that do not fit. *)

Inductive result (A : Type) : Type :=
| Ok (a : A)
| Raise (e : exn).
Arguments Ok {A} a.
Arguments Raise {A} e.

#[export] Instance result_ret : MRet result := λ A a, Ok a.
#[export] Instance result_bind : MBind result := λ A B k m,
  match m with
  | Ok a => k a
  | Raise e => Raise e
  end.

Definition raises {A} (m : result A) : Prop := ∃ e, m = Raise e.

(** [list.sort] and [sorted] are stable and compare keys with [<]
    only.  [before a b] says that [a] has to move in front of [b];
    with [reverse=True] every comparison is reversed and equal keys
    still keep their original order.  A stable sort is determined by
    its input, so insertion from the right stands for it. *)
Section sort.
Context {A K : Type} (lt : K → K → bool) (key : A → K) (reverse : bool).

Definition before (a b : A) : bool :=
  if reverse then lt (key b) (key a) else lt (key a) (key b).

Fixpoint insert_sorted (x : A) (l : list A) : list A :=
  match l with
  | [] => [x]
  | y :: l' => if before y x then y :: insert_sorted x l' else x :: y :: l'
  end.

Definition sorted (l : list A) : list A := foldr insert_sorted [] l.

(** What a stable sort promises: [a] is ranked in front of [b] by
    its key, or with a tied key by the order [R0] the two had
    before the sort. *)
Definition ranked (R0 : relation A) (a b : A) : Prop :=
  before a b = true ∨ (before b a = false ∧ R0 a b).
End sort.

(** [l[:n]] for an integer [n]: a negative [n] counts from the end. *)
Definition slice_to {A} (l : list A) (n : Z) : list A :=
  if (0 <=? n)%Z then take (Z.to_nat n) l
  else take (Z.to_nat (Z.of_nat (length l) + n)) l.

(** [l[i]] *)
Definition list_getitem {A} (l : list A) (i : nat) : result A :=
  match l !! i with
  | Some x => Ok x
  | None => Raise IndexError
  end.

(** [l.count(x)] *)
Definition list_count (x : string) (l : list string) : nat :=
  length (filter (λ y, y = x) l).

(** [d[k]] on a plain [dict]. *)
Definition dict_getitem {V} (d : gmap string V) (k : string) : result V :=
  match d !! k with
  | Some v => Ok v
  | None => Raise (KeyError k)
  end.

(** [enumerate(l)] *)
Definition enumerate {A} (l : list A) : list (nat * A) :=
  imap (λ i x, (i, x)) l.

(** [{tok: i for i, tok in enumerate(l)}]: a later duplicate wins. *)
Definition dict_enumerate (l : list string) : gmap string nat :=
  foldl (λ d it, <[it.2 := it.1]> d) ∅ (enumerate l).

(** [{tok: f(tok) for tok in l}] *)
Definition dict_comprehension {V} (f : string → V) (l : list string)
  : gmap string V :=
  foldl (λ d tok, <[tok := f tok]> d) ∅ l.

(** [d.update(other)] *)
Definition dict_update {V} (d other : gmap string V) : gmap string V :=
  other ∪ d.

(** [collections.Counter]: a missing key reads as [0] and the read
    inserts nothing. *)
Definition Counter_getitem (c : gmap string Z) (tok : string) : Z :=
  default 0%Z (c !! tok).

(** [c.update(iterable)]: one more for every element met. *)
Definition Counter_update (c : gmap string Z) (l : list string)
  : gmap string Z :=
  foldl (λ c tok, <[tok := (Counter_getitem c tok + 1)%Z]> c) c l.

(** [c.subtract(mapping)]: every key of the mapping is lowered by its
    value; a key the counter lacks starts from [0]. *)
Definition Counter_subtract (c m : gmap string Z) : gmap string Z :=
  merge (λ oc om,
           match om with
           | Some n => Some (default 0%Z oc - n)%Z
           | None => oc
           end) c m.

End Py.
Import Py.

(** ** class Vocab *)

(** [_default_unk_index] *)
Definition _default_unk_index : nat := 0.

Module Vocab.

(** The attributes [__init__] sets; [stoi] is the
    [defaultdict(_default_unk_index)]. *)
Record t : Type := mk {
  freqs : gmap string Z;
  stoi : gmap string nat;
  itos : list string
}.

(** [self.stoi[tok]]: a missing key is inserted with the default and
    the default is returned. *)
Definition stoi_getitem (self : t) (tok : string) : nat * t :=
  match stoi self !! tok with
  | Some i => (i, self)
  | None =>
      (_default_unk_index,
       mk (freqs self) (<[tok := _default_unk_index]> (stoi self)) (itos self))
  end.

(** [len(self.itos) == max_size] *)
Definition len_is (l : list string) (max_size : option Z) : bool :=
  match max_size with
  | None => false
  | Some m => (Z.of_nat (length l) =? m)%Z
  end.

(** The loop of lines 84-88, on the pair [(itos, stoi)]. *)
Fixpoint append_loop (min_freq : Z) (max_size : option Z)
    (words_and_frequencies : list (string * Z))
    (itos : list string) (stoi : gmap string nat)
  : list string * gmap string nat :=
  match words_and_frequencies with
  | [] => (itos, stoi)
  | (word, freq) :: rest =>
      if (freq <? min_freq)%Z || len_is itos max_size then (itos, stoi)
      else
        let itos := itos ++ [word] in
        let stoi := <[word := length itos - 1]> stoi in
        append_loop min_freq max_size rest itos stoi
  end.

(** [['<unk>'] + specials] *)
Definition required (specials : list string) : list string :=
  "<unk>" :: specials.

(** The counter as lines 70 and 77 leave it. *)
Definition working_counter (counter : gmap string Z)
    (specials : list string) : gmap string Z :=
  let counter := Counter_update counter (required specials) in
  Counter_subtract counter
    (dict_comprehension (Counter_getitem counter) (required specials)).

(** Lines 81-82. *)
Definition words_and_frequencies (counter : gmap string Z)
  : list (string * Z) :=
  sorted Z.ltb snd true (sorted String.ltb fst false (map_to_list counter)).

(** [Vocab(counter, max_size, min_freq, specials)] with
    [vectors=None].  The constructor works on the caller's [counter]
    object, so the counter is returned next to the new vocabulary. *)
Definition init (counter : gmap string Z) (max_size : option Z)
    (min_freq : Z) (specials : list string) : t * gmap string Z :=
  let freqs := counter in
  let min_freq := Z.max min_freq 1 in
  let stoi := dict_update ∅ (dict_enumerate (required specials)) in
  let itos := required specials in
  let counter := working_counter counter specials in
  let max_size := (λ m, (m + Z.of_nat (length itos))%Z) <$> max_size in
  let '(itos, stoi) :=
    append_loop min_freq max_size (words_and_frequencies counter) itos stoi in
  (mk freqs stoi itos, counter).

(** [self.extend(v, sort)]; of [v] only [v.itos] is read. *)
Definition extend_step (self : t) (w : string) : t :=
  match stoi self !! w with
  | Some _ => self
  | None =>
      let itos := itos self ++ [w] in
      mk (freqs self) (<[w := length itos - 1]> (stoi self)) itos
  end.

Definition extend (self : t) (v_itos : list string) (sort : bool) : t :=
  let words := if sort then sorted String.ltb id false v_itos else v_itos in
  foldl extend_step self words.

(** What a client may do to a vocabulary once it is built. *)
Inductive op : Type :=
| Extend (v_itos : list string) (sort : bool)
| Lookup (tok : string).

Definition is_extend (o : op) : Prop :=
  match o with
  | Extend _ _ => True
  | Lookup _ => False
  end.

Definition run_op (self : t) (o : op) : t :=
  match o with
  | Extend v_itos sort => extend self v_itos sort
  | Lookup tok => (stoi_getitem self tok).2
  end.

Definition run (self : t) (ops : list op) : t := foldl run_op self ops.

(** The order the appended tokens are promised to have: [w] goes in
    front of [w'] when it is more frequent in [counter], or as
    frequent and lexically smaller. *)
Definition in_front (counter : gmap string Z) (w w' : string) : Prop :=
  (Counter_getitem counter w' < Counter_getitem counter w)%Z
  ∨ (Counter_getitem counter w = Counter_getitem counter w'
     ∧ String.ltb w w' = true).

(** The same order on the (word, frequency) pairs of the loop. *)
Definition pair_in_front (a b : string * Z) : Prop :=
  (b.2 < a.2)%Z ∨ (a.2 = b.2 ∧ String.ltb a.1 b.1 = true).

(** [stoi[itos[i]] == i] for every valid [i]. *)
Definition inverse (itos : list string) (stoi : gmap string nat) : Prop :=
  ∀ i w, itos !! i = Some w → stoi !! w = Some i.

(** [stoi] inverts [itos] and has at least as many keys. *)
Definition consistent (v : t) : Prop :=
  inverse (itos v) (stoi v) ∧ length (itos v) ≤ size (stoi v).

(** A key of [stoi] is listed in [itos] or was given the default. *)
Definition defaulted (v : t) : Prop :=
  ∀ w i, stoi v !! w = Some i → w ∈ itos v ∨ i = 0.

End Vocab.

(** ** torch and the text primitives

    The tensor library and the text primitives of the interpreter are
    used as a black box: a tensor is a shape over flat storage, and the
    arithmetic, the metric and the comparison of its results are
    whatever the installed library computes. *)

Record Tensor (scalar : Type) : Type := mkTensor {
  shape : list nat;
  data : list scalar
}.
Arguments mkTensor {scalar} shape data.
Arguments shape {scalar} t.
Arguments data {scalar} t.

Class Torch : Type := {
  scalar : Type;
  (** [0.0] *)
  zero : scalar;
  (** what freshly allocated storage holds at an offset *)
  uninit : nat → scalar;
  (** [float(x)]; [None] is its [ValueError] *)
  float : string → option scalar;
  (** [line.rstrip()] *)
  rstrip : string → string;
  (** [str.lower(word)] *)
  lower : string → string;
  (** [word.decode('utf-8')]; [None] is its failure *)
  decode : string → option string;
  (** the zero-dimensional tensors [torch.dist] returns, with value
      equality and the [<] that [sorted] compares them with; [dist] is
      the value for two tensors that can be broadcast to one shape *)
  distance : Type;
  distance_eq_dec :: EqDecision distance;
  dist : Tensor scalar → Tensor scalar → distance;
  dist_lt : distance → distance → bool;
  (** [t * k], [t += u] and [t / k] for an integer [k] *)
  mul : Tensor scalar → Z → Tensor scalar;
  iadd : Tensor scalar → Tensor scalar → Tensor scalar;
  div : Tensor scalar → Z → Tensor scalar
}.

(** Two shapes can be broadcast to one when, from the last dimension
    backwards, the sizes are equal or one of them is [1]. *)
Fixpoint broadcast_ok (a b : list nat) : bool :=
  match a, b with
  | x :: a, y :: b =>
      (bool_decide (x = y) || bool_decide (x = 1) || bool_decide (y = 1))
      && broadcast_ok a b
  | _, _ => true
  end.

Definition broadcastable (a b : list nat) : bool :=
  broadcast_ok (reverse a) (reverse b).

Section tensors.
Context `{Torch}.

Definition numel (shape : list nat) : nat := foldr Nat.mul 1 shape.

(** [torch.Tensor(rows, cols)]: allocated, not initialised. *)
Definition Tensor_new (rows cols : nat) : Tensor scalar :=
  mkTensor [rows; cols] (uninit <$> seq 0 (rows * cols)).

(** [torch.Tensor.zero_] fills its argument with zeros and returns
    it. *)
Definition zero_ (t : Tensor scalar) : Tensor scalar :=
  mkTensor (shape t) ((λ _, zero) <$> data t).

(** [t[i]]: the [i]-th slice along the first dimension. *)
Definition Tensor_getitem (t : Tensor scalar) (i : nat)
  : result (Tensor scalar) :=
  match shape t with
  | [] => Raise IndexError
  | rows :: rest =>
      if bool_decide (i < rows)
      then Ok (mkTensor rest (take (numel rest) (drop (i * numel rest) (data t))))
      else Raise IndexError
  end.

(** [torch.dist(a, b)]: torch refuses two shapes that cannot be
    broadcast. *)
Definition torch_dist (a b : Tensor scalar) : result distance :=
  if broadcastable (shape a) (shape b) then Ok (dist a b)
  else Raise TorchError.

(** [<] orders the distances [ds] as sorting takes for granted: it is
    transitive on them and a third one is never left incomparable
    (none of them is a NaN). *)
Definition ordered (ds : list distance) : Prop :=
  (∀ a b c, a ∈ ds → b ∈ ds → c ∈ ds →
     dist_lt a b = true → dist_lt b c = true → dist_lt a c = true)
  ∧ (∀ a b c, a ∈ ds → b ∈ ds → c ∈ ds →
       dist_lt a c = true → dist_lt a b = true ∨ dist_lt b c = true).

(** [torch.Tensor(array).view(-1, dim)] *)
Definition view (flat : list scalar) (dim : option nat)
  : result (Tensor scalar) :=
  match dim with
  | None => Raise TypeError
  | Some d =>
      if bool_decide (length flat `mod` d = 0)
      then Ok (mkTensor [length flat `div` d; d] flat)
      else Raise TorchError
  end.
End tensors.

(** [s.split(" ")]: cut at every single space. *)
Fixpoint split_space_go (cur : string) (s : string) : list string :=
  match s with
  | EmptyString => [String.rev cur]
  | String c s' =>
      if Ascii.eqb c " "%char
      then String.rev cur :: split_space_go EmptyString s'
      else split_space_go (String c cur) s'
  end.

Definition split_space (s : string) : list string :=
  split_space_go EmptyString s.

(** ** class Vectors *)

Module Vectors.
Section vectors.
Context `{Torch}.

Record t : Type := mk {
  itos : list string;
  stoi : gmap string nat;
  vectors : Tensor scalar;
  dim : nat;
  unk_init : Tensor scalar → Tensor scalar
}.

(** [self[token]], next to the table it leaves behind. *)
Definition getitem (self : t) (token : string)
  : result (Tensor scalar) * t :=
  match stoi self !! token with
  | Some i => (Tensor_getitem (vectors self) i, self)
  | None => (Ok (unk_init self (Tensor_new 1 (dim self))), self)
  end.

(** The locals [itos], [vectors], [dim] of [cache]. *)
Record parsing : Type := mkParsing {
  p_itos : list string;
  p_vectors : list scalar;
  p_dim : option nat
}.

Definition parsing_start : parsing := mkParsing [] [] None.

(** What the [if]/[elif]/[elif] of lines 250-260 decides for a line
    with [n] numeric fields: go on with a dimension, or skip. *)
Inductive verdict : Type :=
| Keep (dim : option nat)
| Skip.

Definition check_entries (dim : option nat) (word : string) (n : nat)
  : result verdict :=
  if bool_decide (dim = None) && bool_decide (1 < n) then Ok (Keep (Some n))
  else if bool_decide (n = 1) then Ok Skip
  else if bool_decide (dim ≠ Some n) then Raise (RuntimeError word n dim)
  else Ok (Keep dim).

(** [float(x) for x in entries] *)
Fixpoint floats (entries : list string) : result (list scalar) :=
  match entries with
  | [] => Ok []
  | x :: rest =>
      match float x with
      | None => Raise (ValueError x)
      | Some v => vs ← floats rest; Ok (v :: vs)
      end
  end.

(** The fields of a line: [line.rstrip().split(" ")]. *)
Definition fields (line : string) : list string :=
  split_space (rstrip line).

Definition word_of (line : string) : string := hd EmptyString (fields line).
Definition entries_of (line : string) : list string := tail (fields line).

(** Line 248 on a line as it was read.  A line read as bytes has no
    [split] for the [str] separator [" "]: the call raises
    [TypeError]. *)
Definition split_line (binary_lines : bool) (line : string)
  : result (list string) :=
  if binary_lines then Raise TypeError else Ok (fields line).

(** One turn of the loop of lines 245-270. *)
Definition cache_line (binary_lines : bool) (st : parsing) (line : string)
  : result parsing :=
  entries ← split_line binary_lines line;
  let word := hd EmptyString entries in
  let entries := tail entries in
  v ← check_entries (p_dim st) word (length entries);
  match v with
  | Skip => Ok st
  | Keep dim =>
      match (if binary_lines then decode word else Some word) with
      | None => Ok (mkParsing (p_itos st) (p_vectors st) dim)
      | Some word =>
          xs ← floats entries;
          Ok (mkParsing (p_itos st ++ [word]) (p_vectors st ++ xs) dim)
      end
  end.

Fixpoint cache_lines (binary_lines : bool) (st : parsing)
    (lines : list string) : result parsing :=
  match lines with
  | [] => Ok st
  | line :: rest =>
      st ← cache_line binary_lines st line;
      cache_lines binary_lines st rest
  end.

(** Lines 272-276. *)
Definition finish (unk : Tensor scalar → Tensor scalar) (st : parsing)
  : result t :=
  vectors ← view (p_vectors st) (p_dim st);
  Ok (mk (p_itos st) (dict_enumerate (p_itos st)) vectors
         (default 0 (p_dim st)) unk).

(** [cache]: the saved tuple when there is one, else the parse of
    the lines read from the text file ([binary_lines] tells that
    they were read as bytes, after the text could not be decoded). *)
Definition cache (unk : Tensor scalar → Tensor scalar)
    (saved : option (list string * gmap string nat * Tensor scalar * nat))
    (binary_lines : bool) (lines : list string) : result t :=
  match saved with
  | Some (itos, stoi, vectors, dim) => Ok (mk itos stoi vectors dim unk)
  | None =>
      st ← cache_lines binary_lines parsing_start lines;
      finish unk st
  end.

(** [Vectors(name, unk_init=...)] *)
Definition init := cache.

(** The number of numeric fields of the first line that has more
    than one. *)
Fixpoint first_wide (lines : list string) : option nat :=
  match lines with
  | [] => None
  | line :: rest =>
      if bool_decide (1 < length (entries_of line))
      then Some (length (entries_of line))
      else first_wide rest
  end.

(** The loop keeps as many stored numbers as [dim] times the number
    of stored tokens. *)
Definition parsing_ok (st : parsing) : Prop :=
  match p_dim st with
  | None => p_itos st = [] ∧ p_vectors st = []
  | Some d => 1 < d ∧ length (p_vectors st) = length (p_itos st) * d
  end.

(** The table as the data model wants it: [stoi] inverts [itos] and
    every token has its row of [dim] numbers. *)
Definition table_ok (self : t) : Prop :=
  ∀ i w, itos self !! i = Some w →
    stoi self !! w = Some i
    ∧ ∃ row, Tensor_getitem (vectors self) i = Ok row
             ∧ shape row = [dim self].
End vectors.
End Vectors.

(** ** The module-level search *)

Section script.
Context `{Torch}.

(** [glove] is the table the module loads when imported. *)
Variable glove : Vectors.t.

Definition get_word (word : string) : result (Tensor scalar) :=
  i ← dict_getitem (Vectors.stoi glove) word;
  Tensor_getitem (Vectors.vectors glove) i.

(** [(w, torch.dist(vec, get_word(w)))] *)
Definition word_dist (vec : Tensor scalar) (w : string)
  : result (string * distance) :=
  row ← get_word w; d ← torch_dist vec row; Ok (w, d).

(** Row [i] is ranked in front of row [k] when it is nearer, or as
    near and earlier in the table; [ds] lists the distances of the
    rows. *)
Definition closer (ds : list distance) (i k : nat) : Prop :=
  ∃ di dk, ds !! i = Some di ∧ ds !! k = Some dk
           ∧ (dist_lt di dk = true ∨ (dist_lt dk di = false ∧ i < k)).

(** [res] lists, token by token, the [n] rows nearest to [vec]: the
    rows [idxs] that it lists are in ascending order of distance
    with equal distances in table order, and every row left out
    comes after each of them. *)
Definition nearest_rows (vec : Tensor scalar) (n : Z)
    (res : list (string * distance)) : Prop :=
  ∃ (ds : list distance) (idxs : list nat),
    length ds = length (Vectors.itos glove)
    ∧ (∀ i d, ds !! i = Some d →
          ∃ row, Tensor_getitem (Vectors.vectors glove) i = Ok row
                 ∧ d = dist vec row)
    ∧ Forall2 (λ i wd, Vectors.itos glove !! i = Some wd.1
                       ∧ ds !! i = Some wd.2) idxs res
    ∧ length idxs = Z.to_nat n `min` length (Vectors.itos glove)
    ∧ StronglySorted (closer ds) idxs
    ∧ ∀ i k, i ∈ idxs → k < length (Vectors.itos glove) → k ∉ idxs →
        closer ds i k.

(** [closest(vec, n)] *)
Definition closest (vec : Tensor scalar) (n : Z)
  : result (list (string * distance)) :=
  all_dists ← mapM (word_dist vec) (Vectors.itos glove);
  Ok (slice_to (sorted dist_lt snd false all_dists) n).

(** Lines 336-339: the number of occurrences of every distinct
    word. *)
Definition occurence (words unique_words : list string) : list Z :=
  (λ u, Z.of_nat (list_count u words)) <$> unique_words.

(** Lines 341-345, up to the division: [unique_words] is the order in
    which [list(set(words))] happened to list the distinct words. *)
Definition aggregate_step (unique_words : list string) (occ : list Z)
    (sum : Tensor scalar) (i : nat) : result (Tensor scalar) :=
  u ← list_getitem unique_words i;
  v ← get_word (lower u);
  o ← list_getitem occ i;
  Ok (iadd sum (mul v o)).

Fixpoint aggregate_loop (unique_words : list string) (occ : list Z)
    (sum : Tensor scalar) (range : list nat) : result (Tensor scalar) :=
  match range with
  | [] => Ok sum
  | i :: range =>
      sum ← aggregate_step unique_words occ sum i;
      aggregate_loop unique_words occ sum range
  end.

Definition aggregate (words unique_words : list string)
  : result (Tensor scalar) :=
  let occ := occurence words unique_words in
  u ← list_getitem unique_words 0;
  v ← get_word (lower u);
  o ← list_getitem occ 0;
  sum ← aggregate_loop unique_words occ (mul v o)
          (seq 1 (length unique_words - 1));
  Ok (div sum (Z.of_nat (length words))).

(** [unique_words] is a way for [list(set(words))] to come out: the
    distinct words, each once, in some order. *)
Definition is_listing (words unique_words : list string) : Prop :=
  NoDup unique_words ∧ ∀ w, w ∈ unique_words ↔ w ∈ words.

(** The mapping from token to count that lines 336-339 build. *)
Definition token_counts (words unique_words : list string)
  : list (string * Z) :=
  zip unique_words (occurence words unique_words).

(** [get_word(str.lower(u)) * o]: what lines 341 and 343 add for a
    word and its count. *)
Definition weighted_term (tc : string * Z) : result (Tensor scalar) :=
  v ← get_word (lower tc.1); Ok (mul v tc.2).

(** The mapping as the script looks its tokens up: the caller
    normalises the case. *)
Definition lowered (tokenCounts : list (string * Z)) : list (string * Z) :=
  (λ tc, (lower tc.1, tc.2)) <$> tokenCounts.

Definition total (tokenCounts : list (string * Z)) : Z :=
  foldr Z.add 0%Z tokenCounts.*2.

(** [vectorOf(token)] in the words of the specification (4.1): the row
    of the token when the index holds it, and else what the
    unknown-vector initialiser makes of a vector of length [dim], by
    default the zero vector; the table is not touched. *)
Definition vectorOf (token : string) : result (Tensor scalar) :=
  match Vectors.stoi glove !! token with
  | Some i => Tensor_getitem (Vectors.vectors glove) i
  | None =>
      Ok (Vectors.unk_init glove
            (mkTensor [Vectors.dim glove]
               (uninit <$> seq 0 (Vectors.dim glove))))
  end.

Definition vector_term (tc : string * Z) : result (Tensor scalar) :=
  v ← vectorOf tc.1; Ok (mul v tc.2).

(** [weightedAggregate(table, tokenCounts)] in the words of the
    specification (4.3): the sum over the tokens of
    [vectorOf(token) * count], divided by the sum of the counts;
    [EmptyInput], which is [None] here, for a mapping that is empty or
    has only zero counts. *)
Definition weightedAggregate (tokenCounts : list (string * Z))
  : option (result (Tensor scalar)) :=
  match tokenCounts with
  | [] => None
  | tc :: rest =>
      if bool_decide (Forall (λ tc, tc.2 = 0%Z) tokenCounts) then None
      else Some (t ← vector_term tc;
                 ts ← mapM vector_term rest;
                 Ok (div (foldl iadd t ts) (total tokenCounts)))
  end.

(** The unweighted mean of the vectors of [tokens], in the same
    words. *)
Definition unweighted_mean (tokens : list string)
  : option (result (Tensor scalar)) :=
  match tokens with
  | [] => None
  | t :: rest =>
      Some (v ← vectorOf t;
            vs ← mapM vectorOf rest;
            Ok (div (foldl iadd v vs) (Z.of_nat (length tokens))))
  end.

(** [closest(get_word(str.lower(word)), n)] *)
Definition neighbours (n : Z) (word : string)
  : result (list (string * distance)) :=
  v ← get_word (lower word);
  closest v n.

(** The distance in a tuple is the tensor that [torch.dist] made for
    it, and a tensor hashes by identity: a set finds a tuple only by a
    tuple that holds the very same tensor.  A tensor is told apart here
    by the call of [closest] that made it and its place in the
    result. *)
Definition made_by (call : nat) (near : list (string * distance))
  : list (nat * nat * (string * distance)) :=
  imap (λ j wd, (call, j, wd)) near.

(** [set(l)] and [a & b] on such tuples. *)
Definition set_and (a b : list (nat * nat * (string * distance)))
  : list (nat * nat * (string * distance)) :=
  filter (λ x, x ∈ b) a.

(** Lines 348-350, for the [n] that [closest] is called with: the call
    of line 348 is the first to run, the one for [words[i]] runs as
    number [i + 1]. *)
Fixpoint intersection_loop (n : Z) (words : list string)
    (acc : list (nat * nat * (string * distance))) (range : list nat)
  : result (list (nat * nat * (string * distance))) :=
  match range with
  | [] => Ok acc
  | i :: range =>
      w ← list_getitem words i;
      s ← neighbours n w;
      intersection_loop n words (set_and acc (made_by (S i) s)) range
  end.

(** The (token, distance) tuples of the set that line 352 prints. *)
Definition intersection (n : Z) (words : list string)
  : result (list (string * distance)) :=
  w ← list_getitem words 0;
  first ← neighbours n w;
  res ← intersection_loop n words (made_by 0 first) (seq 0 (length words));
  Ok res.*2.
End script.

(** ** An instance to run the definitions on

    Integer-valued tensors with the Euclidean metric, exact on the
    points used below (their squared distances are perfect squares),
    and the ASCII part of the text primitives. *)

Module Example.

Definition is_space (c : ascii) : bool :=
  let n := nat_of_ascii c in
  bool_decide (n = 32) || bool_decide (9 ≤ n ≤ 13).

Fixpoint ascii_rstrip (s : string) : string :=
  match s with
  | EmptyString => EmptyString
  | String c s' =>
      match ascii_rstrip s' with
      | EmptyString => if is_space c then EmptyString else String c EmptyString
      | r => String c r
      end
  end.

Definition lower_char (c : ascii) : ascii :=
  let n := nat_of_ascii c in
  if bool_decide (65 ≤ n ≤ 90) then ascii_of_nat (n + 32) else c.

Fixpoint ascii_lower (s : string) : string :=
  match s with
  | EmptyString => EmptyString
  | String c s' => String (lower_char c) (ascii_lower s')
  end.

Fixpoint digits (acc : Z) (s : string) : option Z :=
  match s with
  | EmptyString => Some acc
  | String c s' =>
      let n := nat_of_ascii c in
      if bool_decide (48 ≤ n ≤ 57)
      then digits (10 * acc + Z.of_nat (n - 48))%Z s'
      else None
  end.

Definition int_float (s : string) : option Z :=
  match s with
  | EmptyString => None
  | String "-" (String c s') => Z.opp <$> digits 0 (String c s')
  | _ => digits 0 s
  end.

Definition euclid (a b : Tensor Z) : Z :=
  Z.sqrt (foldr Z.add 0%Z (zip_with (λ x y, (x - y) * (x - y))%Z (data a) (data b))).

#[export] Instance int_torch : Torch := {|
  scalar := Z;
  zero := 0%Z;
  uninit := λ i, (Z.of_nat i + 7)%Z;
  float := int_float;
  rstrip := ascii_rstrip;
  lower := ascii_lower;
  decode := Some;
  distance := Z;
  dist := euclid;
  dist_lt := Z.ltb;
  mul := λ t k, mkTensor (shape t) ((λ x, x * k)%Z <$> data t);
  iadd := λ t u, mkTensor (shape t) (zip_with Z.add (data t) (data u));
  div := λ t k, mkTensor (shape t) ((λ x, x `div` k)%Z <$> data t)
|}.

Definition zeros : Tensor Z → Tensor Z := zero_.

(** A three-line embedding file and the table loaded from it. *)
Definition lines : list string := ["cat 0 0"; "dog 3 4"; "puppy 6 8"].

Definition table : Vectors.t :=
  Vectors.mk ["cat"; "dog"; "puppy"]
    (dict_enumerate ["cat"; "dog"; "puppy"])
    (mkTensor [3; 2] [0; 0; 3; 4; 6; 8]%Z) 2 zeros.

(** A file that repeats a token. *)
Definition table_dup : Vectors.t :=
  Vectors.mk ["a"; "b"; "a"]
    (dict_enumerate ["a"; "b"; "a"])
    (mkTensor [3; 2] [0; 0; 3; 4; 6; 8]%Z) 2 zeros.

Definition counter : gmap string Z :=
  <["a" := 5%Z]> (<["b" := 5%Z]> (<["c" := 1%Z]> ∅)).

End Example.

(** ** The rest of the module

    The functions of [vocab.py] next to the ones above: the download
    progress hook, the comparison and length of a vocabulary, the
    vectors attached to one, and the cache file and [GloVe] front end
    of a vector table. *)

(** [for x in l: s = body(s, x)], stopped by the first exception. *)
Fixpoint for_each {A S : Type} (body : S → A → result S) (s : S) (l : list A)
  : result S :=
  match l with
  | [] => Ok s
  | x :: l => s ← body s x; for_each body s l
  end.

(** *** reporthook *)

(** The progress bar as far as the hook uses it: [total] and the count
    [n] that [update] adds to. *)
Module Tqdm.

Record t : Type := mk {
  total : option Z;
  n : Z
}.

Definition update (bar : t) (k : Z) : t := mk (total bar) (n bar + k)%Z.

End Tqdm.

(** The closure [reporthook(t)] returns: the bar and the cell
    [last_b[0]]. *)
Record hook : Type := mkHook {
  hook_bar : Tqdm.t;
  last_b : Z
}.

Definition reporthook (t : Tqdm.t) : hook := mkHook t 0.

(** [inner(b, bsize, tsize)] *)
Definition inner (h : hook) (b bsize : Z) (tsize : option Z) : hook :=
  let t :=
    match tsize with
    | Some tsize => Tqdm.mk (Some tsize) (Tqdm.n (hook_bar h))
    | None => hook_bar h
    end in
  mkHook (Tqdm.update t ((b - last_b h) * bsize)%Z) b.

(** The calls a download makes, one [(b, tsize)] per block report, all
    with one block size. *)
Definition report (bsize : Z) (h : hook) (calls : list (Z * option Z)) : hook :=
  foldl (λ h c, inner h c.1 bsize c.2) h calls.

(** *** Vocab: comparison and length *)

Module VocabMethods.

(** [self == other] for vocabularies without attached vectors (both
    [vectors] are [None]); the attributes are compared as
    dictionaries and lists. *)
Definition __eq__ (self other : Vocab.t) : bool :=
  if bool_decide (Vocab.freqs self ≠ Vocab.freqs other) then false
  else if bool_decide (Vocab.stoi self ≠ Vocab.stoi other) then false
  else if bool_decide (Vocab.itos self ≠ Vocab.itos other) then false
  else true.

(** [len(self)] *)
Definition __len__ (self : Vocab.t) : nat := length (Vocab.itos self).

End VocabMethods.

(** Whether the loop of lines 84-88 stopped at the size bound. *)
Definition bound_hit (max_size : option Z) (specials itos : list string)
  : Prop :=
  match max_size with
  | None => False
  | Some m =>
      Z.of_nat (length itos)
      = (m + Z.of_nat (length (Vocab.required specials)))%Z
  end.

(** An index that [stoi] gives is a place of [itos], and [itos] is not
    empty. *)
Definition in_range (itos : list string) (stoi : gmap string nat) : Prop :=
  0 < length itos ∧ ∀ w i, stoi !! w = Some i → i < length itos.

(** *** Assignment into a tensor *)

Section assignment.
Context `{Torch}.

(** A tensor holds as many numbers as its shape says. *)
Definition Tensor_wf (t : Tensor scalar) : Prop :=
  length (data t) = numel (shape t).

(** Leading dimensions of size [1] do not count when a value is
    assigned. *)
Fixpoint strip_ones (shape : list nat) : list nat :=
  match shape with
  | 1 :: shape => strip_ones shape
  | _ => shape
  end.

(** The numbers written when [src] is assigned to [len] numbers in a
    row: [src] as it is when it has that shape, a single number
    repeated, and an error for any other shape. *)
Definition broadcast_to (len : nat) (src : Tensor scalar)
  : result (list scalar) :=
  match strip_ones (shape src) with
  | [] =>
      match data src with
      | x :: _ => Ok (replicate len x)
      | [] => Raise TorchError
      end
  | [d] => if bool_decide (d = len) then Ok (data src) else Raise TorchError
  | _ => Raise TorchError
  end.

(** [src] is assigned as [d] numbers in a row: it has [d] numbers and,
    leading ones apart, the shape [[d]]. *)
Definition is_vector (d : nat) (src : Tensor scalar) : Prop :=
  strip_ones (shape src) = strip_ones [d] ∧ length (data src) = d.

(** [t[i][start:stop] = src] for a two-dimensional [t]; the slice is
    clipped to the row as Python clips it. *)
Definition Tensor_set_slice (t : Tensor scalar) (i start stop : nat)
    (src : Tensor scalar) : result (Tensor scalar) :=
  match shape t with
  | [rows; cols] =>
      if bool_decide (i < rows) then
        let a := start `min` cols in
        let b := (stop `min` cols) `max` a in
        vals ← broadcast_to (b - a) src;
        Ok (mkTensor (shape t)
              (take (i * cols + a) (data t) ++ vals
               ++ drop (i * cols + b) (data t)))
      else Raise IndexError
  | _ => Raise TorchError
  end.

(** [t[i] = src] for a two-dimensional [t]. *)
Definition Tensor_setitem (t : Tensor scalar) (i : nat) (src : Tensor scalar)
  : result (Tensor scalar) :=
  match shape t with
  | [rows; cols] => Tensor_set_slice t i 0 cols src
  | _ => Raise TorchError
  end.
End assignment.

(** *** Vocab: attached vectors *)

Section attach.
Context `{Torch}.

(** What [load_vectors] may be handed for a vector source: the name of
    a pretrained table, a [Vectors] object, or anything else (with the
    name of its type). *)
Inductive vector_arg : Type :=
| Alias (name : string)
| Table (v : Vectors.t)
| Other (type_name : string).

(** The argument itself: one source or a list of them. *)
Inductive vectors_arg : Type :=
| One (vector : vector_arg)
| Many (vectors : list vector_arg).

(** Lines 126-127: one source is taken as a list of one. *)
Definition as_list (vectors : vectors_arg) : list vector_arg :=
  match vectors with
  | One vector => [vector]
  | Many vectors => vectors
  end.

(** [pretrained_aliases]: the one name it knows, with what its
    constructor [GloVe(name="840B", dim="300")] comes back with. *)
Definition pretrained_aliases (glove_840B : result Vectors.t)
  : gmap string (result Vectors.t) :=
  {[ "glove.840B.300d" := glove_840B ]}.

(** Lines 129-141 for one entry of the list. *)
Definition resolve (aliases : gmap string (result Vectors.t))
    (vector : vector_arg) : result Vectors.t :=
  match vector with
  | Alias name =>
      match aliases !! name with
      | None => Raise (ValueError name)
      | Some made => made
      end
  | Table v => Ok v
  | Other type_name => Raise (ValueError type_name)
  end.

(** Lines 146-150: the sources' vectors for [token] written side by
    side into row [i]; the column reached comes back with the
    tensor. *)
Fixpoint fill_row (vectors : list Vectors.t) (token : string) (i : nat)
    (start_dim : nat) (t : Tensor scalar) : result (Tensor scalar * nat) :=
  match vectors with
  | [] => Ok (t, start_dim)
  | v :: vectors =>
      let end_dim := start_dim + Vectors.dim v in
      src ← (Vectors.getitem v token).1;
      t ← Tensor_set_slice t i start_dim end_dim src;
      fill_row vectors token i end_dim t
  end.

(** What the module global [sum] is bound to when a method looks the
    name up: the builtin, until line 341 binds it to a tensor. *)
Inductive sum_global : Type :=
| Builtin_sum
| Rebound_sum (t : Tensor scalar).

(** [sum(v.dim for v in vectors)]: a tensor cannot be called. *)
Definition sum_dims (sum : sum_global) (vectors : list Vectors.t)
  : result nat :=
  match sum with
  | Builtin_sum => Ok (foldr Nat.add 0 (Vectors.dim <$> vectors))
  | Rebound_sum _ => Raise TypeError
  end.

(** [self.load_vectors(vectors)] with the module global [sum] as the
    call finds it: the tensor [self.vectors] is set to.  The [assert]
    of line 151 is left out: it compares the column reached with
    [tot_dim], which [fill_row] reaches by construction. *)
Definition load_vectors (aliases : gmap string (result Vectors.t))
    (sum : sum_global) (self : Vocab.t) (vectors : vectors_arg)
  : result (Tensor scalar) :=
  vectors ← mapM (resolve aliases) (as_list vectors);
  tot_dim ← sum_dims sum vectors;
  for_each
    (λ t it, r ← fill_row vectors it.2 it.1 0 t; Ok r.1)
    (Tensor_new (length (Vocab.itos self)) tot_dim)
    (enumerate (Vocab.itos self)).

(** One turn of the loop of [set_vectors]. *)
Definition set_vectors_step (stoi : gmap string nat)
    (vectors : nat → result (Tensor scalar))
    (unk_init : Tensor scalar → Tensor scalar)
    (t : Tensor scalar) (it : nat * string) : result (Tensor scalar) :=
  match stoi !! it.2 with
  | Some wv_index =>
      src ← vectors wv_index;
      Tensor_setitem t it.1 src
  | None =>
      row ← Tensor_getitem t it.1;
      Tensor_setitem t it.1 (unk_init row)
  end.

(** [self.set_vectors(stoi, vectors, dim, unk_init)], with [vectors]
    by its [__getitem__]: the tensor [self.vectors] is set to. *)
Definition set_vectors (self : Vocab.t) (stoi : gmap string nat)
    (vectors : nat → result (Tensor scalar)) (dim : nat)
    (unk_init : Tensor scalar → Tensor scalar) : result (Tensor scalar) :=
  for_each (set_vectors_step stoi vectors unk_init)
    (Tensor_new (length (Vocab.itos self)) dim)
    (enumerate (Vocab.itos self)).

(** The numbers [set_vectors] puts in row [i] for [token]: the vector
    at the token's index, or what [unk_init] makes of the row as it was
    allocated. *)
Definition fresh_row (dim i : nat) : Tensor scalar :=
  mkTensor [dim] (uninit <$> seq (i * dim) dim).

Definition set_vectors_row (stoi : gmap string nat)
    (vectors : nat → result (Tensor scalar)) (dim : nat)
    (unk_init : Tensor scalar → Tensor scalar) (i : nat) (token : string)
  : list scalar :=
  match stoi !! token with
  | Some wv_index =>
      match vectors wv_index with
      | Ok src => data src
      | Raise _ => []
      end
  | None => data (unk_init (fresh_row dim i))
  end.

(** The vector for [token] can be assigned to a row of [dim]
    numbers. *)
Definition set_vectors_ok (stoi : gmap string nat)
    (vectors : nat → result (Tensor scalar)) (dim : nat)
    (unk_init : Tensor scalar → Tensor scalar) (i : nat) (token : string)
  : Prop :=
  match stoi !! token with
  | Some wv_index => ∃ src, vectors wv_index = Ok src ∧ is_vector dim src
  | None => is_vector dim (unk_init (fresh_row dim i))
  end.
End attach.

(** *** The cache file and GloVe *)

(** What [torch.save] writes and [torch.load] reads back. *)
Abbreviation artefact :=
  (list string * gmap string nat * Tensor scalar * nat)%type.

Section files.
Context `{Torch}.

(** The lines of a file that the loader keeps: all but those with one
    numeric field. *)
Definition kept (lines : list string) : list string :=
  filter (λ line, length (Vectors.entries_of line) ≠ 1) lines.

(** [os.path.join] *)
Variable path_join : string → string → string.

Definition artefact_of (t : Vectors.t) : artefact :=
  (Vectors.itos t, Vectors.stoi t, Vectors.vectors t, Vectors.dim t).

(** [path + '.pt'] for [path = os.path.join(cache, name)] *)
Definition path_pt (cache name : string) : string :=
  path_join cache name +:+ ".pt".

(** The files the constructor meets. *)
Record files : Type := mkFiles {
  (** the [.pt] files there are, each by what [torch.load] and the
      unpacking of line 281 make of it *)
  pt_files : gmap string (result artefact);
  (** what [torch.save] raises for a path it cannot write to; nothing
      creates the cache directory *)
  save_error : string → option exn;
  (** reading ["glove.840B.300d.txt"], lines 231-242: its lines as text
      or, when that fails, as bytes ([true]), or the exception of the
      second [open] *)
  text_file : result (bool * list string)
}.

(** [Vectors(name, cache, unk_init)]: [cache] looks for the file
    [path_pt], and after a parse it saves the tuple there.  The table
    comes back with the files as they are afterwards. *)
Definition Vectors_init (fs : files) (name cache : string)
    (unk_init : Tensor scalar → Tensor scalar)
  : result Vectors.t * files :=
  match pt_files fs !! path_pt cache name with
  | Some loaded =>
      (saved ← loaded; Vectors.cache unk_init (Some saved) false [], fs)
  | None =>
      match text_file fs with
      | Raise e => (Raise e, fs)
      | Ok (binary_lines, lines) =>
          match Vectors.cache unk_init None binary_lines lines with
          | Raise e => (Raise e, fs)
          | Ok t =>
              match save_error fs (path_pt cache name) with
              | Some e => (Raise e, fs)
              | None =>
                  (Ok t,
                   mkFiles (<[path_pt cache name := Ok (artefact_of t)]>
                              (pt_files fs))
                     (save_error fs) (text_file fs))
              end
          end
      end
  end.

(** [GloVe.url] *)
Definition GloVe_url : gmap string string :=
  {[ "42B" := "http://nlp.stanford.edu/data/glove.42B.300d.zip";
     "840B" := "http://nlp.stanford.edu/data/glove.840B.300d.zip";
     "twitter.27B" := "http://nlp.stanford.edu/data/glove.twitter.27B.zip";
     "6B" := "http://nlp.stanford.edu/data/glove.6B.zip" ]}.

(** ['glove.{}.{}d.txt'.format(name, str(dim))], with [dim] standing
    for the text of [str(dim)]. *)
Definition GloVe_name (name dim : string) : string :=
  "glove." +:+ name +:+ "." +:+ dim +:+ "d.txt".

(** [GloVe(name, dim, cache=..., unk_init=...)]: the parent
    constructor runs twice, the second time inside [print]. *)
Definition GloVe_init (fs : files) (name dim cache : string)
    (unk_init : Tensor scalar → Tensor scalar)
  : result Vectors.t * files :=
  match GloVe_url !! name with
  | None => (Raise (KeyError name), fs)
  | Some url =>
      let name := GloVe_name name dim in
      let r := Vectors_init fs name cache unk_init in
      match r.1 with
      | Raise e => r
      | Ok _ => Vectors_init r.2 name cache unk_init
      end
  end.
End files.

(** *** A vocabulary and a file system to run them on *)

Module Fixture.

Definition counter : gmap string Z :=
  <["dog" := 2%Z]> (<["bird" := 1%Z]> ∅).

(** The vocabulary [<unk>, dog, bird]. *)
Definition vocab : Vocab.t := (Vocab.init counter None 1 []).1.

Definition path_join (dir name : string) : string := dir +:+ "/" +:+ name.

(** A file that repeats a token, and one with a field that is no
    number. *)
Definition lines_dup : list string := ["a 0 0"; "b 3 4"; "a 6 8"].

Definition lines_bad : list string := ["cat 0 0"; "dog 3 x"; "puppy 6 8"].

(** A file in Latin-1, which is not valid UTF-8 (the byte 233 of "café"
    is followed by a space): it is read as bytes. *)
Definition lines_latin1 : list string :=
  ["3 2"; "caf" +:+ String "233"%char " 0 0"; "dog 3 4"; "puppy 6 8"].

(** No [.pt] file yet and the text file with [lines]; the cache
    directory is there ([fresh]) or not ([no_directory]). *)
Definition fresh (lines : list string) : files (H := Example.int_torch) :=
  mkFiles ∅ (λ _, None) (Ok (false, lines)).


End Fixture.

(** * Properties *)

(** ** Stable sorting *)

Section sort_facts.
Context {A K : Type} (lt : K → K → bool) (key : A → K) (reverse : bool).
Hypothesis lt_trans : ∀ a b c, lt a b = true → lt b c = true → lt a c = true.
Hypothesis lt_cotrans : ∀ a b c, lt a c = true → lt a b = true ∨ lt b c = true.

Local Abbreviation bef := (before lt key reverse).
Local Abbreviation ins := (insert_sorted lt key reverse).
Local Abbreviation srt := (sorted lt key reverse).
Local Abbreviation ranked := (ranked lt key reverse).

Lemma before_trans a b c : bef a b = true → bef b c = true → bef a c = true.
Proof using lt_trans. unfold before. destruct reverse; eauto. Qed.

Lemma before_cotrans a b c : bef a c = true → bef a b = true ∨ bef b c = true.
Proof using lt_cotrans.
  unfold before. destruct reverse; intros Hac; [|by eauto].
  destruct (lt_cotrans _ (key b) _ Hac); auto.
Qed.

Lemma insert_sorted_perm x l : ins x l ≡ₚ x :: l.
Proof.
  induction l as [|y l IH]; simpl; [done|].
  destruct (bef y x); [|done]. rewrite IH. apply Permutation_swap.
Qed.

Lemma sorted_perm l : srt l ≡ₚ l.
Proof.
  induction l as [|x l IH]; simpl; [done|].
  rewrite insert_sorted_perm. by rewrite IH.
Qed.

Lemma sorted_length l : length (srt l) = length l.
Proof. by rewrite sorted_perm. Qed.

Lemma insert_sorted_ranked R0 x l :
  StronglySorted (ranked R0) l → Forall (R0 x) l →
  StronglySorted (ranked R0) (ins x l).
Proof using lt_trans lt_cotrans.
  induction 1 as [|y l Hl IH Hy]; intros Hx; simpl.
  { repeat constructor. }
  apply Forall_cons in Hx as [Hxy Hxl].
  destruct (bef y x) eqn:Hyx.
  - constructor; [by apply IH|].
    rewrite insert_sorted_perm. constructor; [by left|done].
  - constructor; [by constructor|].
    constructor; [by right|].
    apply Forall_forall. intros z Hz.
    rewrite Forall_forall in Hy, Hxl.
    right. split; [|by apply Hxl].
    destruct (bef z x) eqn:Hzx; [|done].
    destruct (Hy z Hz) as [Hyz|[Hzy _]].
    + by rewrite (before_trans _ _ _ Hyz Hzx) in Hyx.
    + destruct (before_cotrans _ y _ Hzx); congruence.
Qed.

Lemma sorted_ranked R0 l :
  StronglySorted R0 l → StronglySorted (ranked R0) (srt l).
Proof using lt_trans lt_cotrans.
  induction 1 as [|x l Hl IH Hx]; simpl; [constructor|].
  apply insert_sorted_ranked; [done|]. by rewrite sorted_perm.
Qed.
End sort_facts.

(** The same for an order whose laws hold on the keys met, those in
    [D], and may fail elsewhere. *)
Section sort_facts_on.
Context {A K : Type} (lt : K → K → bool) (key : A → K) (reverse : bool).
Context (D : K → Prop).
Hypothesis lt_trans : ∀ a b c, D a → D b → D c →
  lt a b = true → lt b c = true → lt a c = true.
Hypothesis lt_cotrans : ∀ a b c, D a → D b → D c →
  lt a c = true → lt a b = true ∨ lt b c = true.

Local Abbreviation bef := (before lt key reverse).
Local Abbreviation ins := (insert_sorted lt key reverse).
Local Abbreviation srt := (sorted lt key reverse).
Local Abbreviation ranked := (ranked lt key reverse).
Local Abbreviation met := (λ x, D (key x)).

Lemma before_trans_on a b c :
  met a → met b → met c → bef a b = true → bef b c = true → bef a c = true.
Proof using lt_trans.
  unfold before. destruct reverse; intros Ha Hb Hc; [|by apply lt_trans].
  intros Hab Hbc. by apply (lt_trans _ (key b)).
Qed.

Lemma before_cotrans_on a b c :
  met a → met b → met c → bef a c = true → bef a b = true ∨ bef b c = true.
Proof using lt_cotrans.
  unfold before. destruct reverse; intros Ha Hb Hc Hac;
    [|by apply lt_cotrans].
  destruct (lt_cotrans _ (key b) _ Hc Hb Ha Hac); auto.
Qed.

Lemma insert_sorted_ranked_on R0 x l :
  met x → Forall met l →
  StronglySorted (ranked R0) l → Forall (R0 x) l →
  StronglySorted (ranked R0) (ins x l).
Proof using lt_trans lt_cotrans.
  intros Hmx Hml Hl. revert Hml.
  induction Hl as [|y l Hl IH Hy]; intros Hml Hx; simpl.
  { repeat constructor. }
  apply Forall_cons in Hx as [Hxy Hxl].
  apply Forall_cons in Hml as [Hmy Hml].
  destruct (bef y x) eqn:Hyx.
  - constructor; [by apply IH|].
    rewrite insert_sorted_perm. constructor; [by left|done].
  - constructor; [by constructor|].
    constructor; [by right|].
    apply Forall_forall. intros z Hz.
    rewrite Forall_forall in Hy, Hxl, Hml.
    right. split; [|by apply Hxl].
    destruct (bef z x) eqn:Hzx; [|done].
    destruct (Hy z Hz) as [Hyz|[Hzy _]].
    + rewrite (before_trans_on y z x) in Hyx; auto.
    + destruct (before_cotrans_on z y x); auto; congruence.
Qed.

Lemma sorted_ranked_on R0 l :
  Forall met l →
  StronglySorted R0 l → StronglySorted (ranked R0) (srt l).
Proof using lt_trans lt_cotrans.
  intros Hml Hl. revert Hml.
  induction Hl as [|x l Hl IH Hx]; intros Hml; simpl; [constructor|].
  apply Forall_cons in Hml as [Hmx Hml].
  apply insert_sorted_ranked_on; [done| |by apply IH|].
  - by rewrite sorted_perm.
  - by rewrite sorted_perm.
Qed.
End sort_facts_on.

(** Sorting commutes with a map that keeps the keys. *)
Lemma insert_sorted_fmap {A B K} (lt : K → K → bool) (key : B → K)
    (reverse : bool) (f : A → B) (x : A) (l : list A) :
  f <$> insert_sorted lt (key ∘ f) reverse x l
  = insert_sorted lt key reverse (f x) (f <$> l).
Proof.
  induction l as [|y l IH]; [done|].
  cbn [insert_sorted fmap list_fmap].
  replace (before lt (key ∘ f) reverse y x) with (before lt key reverse (f y) (f x))
    by done.
  destruct (before lt key reverse (f y) (f x)); [|done].
  cbn [fmap list_fmap]. f_equal. apply IH.
Qed.

Lemma sorted_fmap {A B K} (lt : K → K → bool) (key : B → K) (reverse : bool)
    (f : A → B) (l : list A) :
  f <$> sorted lt (key ∘ f) reverse l = sorted lt key reverse (f <$> l).
Proof.
  induction l as [|x l IH]; [done|].
  cbn [sorted foldr fmap list_fmap].
  rewrite insert_sorted_fmap. f_equal. apply IH.
Qed.

(** A prefix of a ranked list is ranked in front of the rest. *)
Lemma StronglySorted_take {A} (R : relation A) (l : list A) n :
  StronglySorted R l → StronglySorted R (take n l).
Proof.
  intros Hl. rewrite <-(take_drop n l) in Hl.
  by apply StronglySorted_app_1_l in Hl.
Qed.

Lemma StronglySorted_take_drop {A} (R : relation A) (l : list A) n x y :
  StronglySorted R l → x ∈ take n l → y ∈ drop n l → R x y.
Proof.
  intros Hl Hx Hy. rewrite <-(take_drop n l) in Hl.
  by apply (StronglySorted_app_1_elem_of _ _ _ _ _ Hl).
Qed.

Lemma StronglySorted_impl_elem {A} (R R' : relation A) (l : list A) :
  (∀ a b, a ∈ l → b ∈ l → R a b → R' a b) →
  StronglySorted R l → StronglySorted R' l.
Proof.
  intros HR Hl. induction Hl as [|x l Hl IH Hx]; constructor.
  - apply IH. intros a b Ha Hb. apply HR; by right.
  - rewrite Forall_forall in Hx |- *. intros y Hy.
    apply HR; [left|by right|by apply Hx].
Qed.

Lemma StronglySorted_fmap_2 {A B} (R : relation B) (f : A → B) (l : list A) :
  StronglySorted (λ a b, R (f a) (f b)) l → StronglySorted R (f <$> l).
Proof.
  induction 1 as [|x l Hl IH Hx]; simpl; constructor; [done|].
  by apply Forall_fmap.
Qed.

Lemma NoDup_StronglySorted_ne {A B} (f : A → B) (l : list A) :
  NoDup (f <$> l) → StronglySorted (λ a b, f a ≠ f b) l.
Proof.
  induction l as [|x l IH]; simpl; [constructor|].
  intros [Hx Hl]%NoDup_cons. constructor; [by apply IH|].
  apply Forall_forall. intros y Hy Heq. apply Hx. rewrite Heq.
  by apply list_elem_of_fmap_2.
Qed.

(** ** The order of [str] *)

Lemma string_ltb_lt a b :
  String.ltb a b = true ↔ OrderedTypeEx.String_as_OT.lt a b.
Proof.
  rewrite <-OrderedTypeEx.String_as_OT.cmp_lt.
  unfold String.ltb, OrderedTypeEx.String_as_OT.cmp.
  destruct (String.compare a b); split; congruence.
Qed.

Lemma string_ltb_trans a b c :
  String.ltb a b = true → String.ltb b c = true → String.ltb a c = true.
Proof.
  rewrite !string_ltb_lt. apply OrderedTypeEx.String_as_OT.lt_trans.
Qed.

Lemma string_ltb_total a b :
  a ≠ b → String.ltb a b = true ∨ String.ltb b a = true.
Proof.
  intros Hne. unfold String.ltb.
  rewrite (String.compare_antisym b a).
  destruct (String.compare a b) eqn:Hc; simpl; auto.
  by apply String.compare_eq_iff in Hc.
Qed.

Lemma string_ltb_irrefl a : String.ltb a a = false.
Proof.
  unfold String.ltb.
  pose proof (String.compare_antisym a a) as Hc.
  destruct (String.compare a a); simpl in Hc; congruence.
Qed.

Lemma string_ltb_cotrans a b c :
  String.ltb a c = true → String.ltb a b = true ∨ String.ltb b c = true.
Proof.
  intros Hac. destruct (decide (a = b)) as [->|Hab]; [by right|].
  destruct (string_ltb_total a b Hab) as [?|Hba]; [by left|].
  right. by apply string_ltb_trans with a.
Qed.

Lemma Z_ltb_trans a b c :
  (a <? b)%Z = true → (b <? c)%Z = true → (a <? c)%Z = true.
Proof. rewrite !Z.ltb_lt. lia. Qed.

Lemma Z_ltb_cotrans a b c :
  (a <? c)%Z = true → (a <? b)%Z = true ∨ (b <? c)%Z = true.
Proof. rewrite !Z.ltb_lt. lia. Qed.

(** ** Dictionaries and counters *)

Lemma dict_enumerate_snoc l x :
  dict_enumerate (l ++ [x]) = <[x := length l]> (dict_enumerate l).
Proof.
  unfold dict_enumerate, enumerate. rewrite imap_app, foldl_app. simpl.
  by rewrite Nat.add_0_r.
Qed.

Lemma dict_enumerate_dom l w :
  is_Some (dict_enumerate l !! w) → w ∈ l.
Proof.
  induction l as [|x l IH] using rev_ind.
  { unfold dict_enumerate. simpl. rewrite lookup_empty. by intros [? ?]. }
  rewrite dict_enumerate_snoc, lookup_insert. case_decide; subst.
  - intros _. apply elem_of_app. right. by left.
  - intros Hw. apply elem_of_app. left. by apply IH.
Qed.

Lemma dict_enumerate_inverse l :
  NoDup l → Vocab.inverse l (dict_enumerate l).
Proof.
  induction l as [|x l IH] using rev_ind; intros Hl i w Hi; [done|].
  apply NoDup_app in Hl as (Hl & Hx & _).
  rewrite dict_enumerate_snoc.
  destruct (decide (i < length l)) as [Hlt|Hge].
  - rewrite lookup_app_l in Hi by done.
    rewrite lookup_insert_ne; [by apply IH|].
    intros ->. apply (Hx w); [|by left]. by eapply list_elem_of_lookup_2.
  - rewrite lookup_app_r in Hi by lia.
    destruct (i - length l) as [|k] eqn:Hk; simpl in Hi; [|done].
    injection Hi as ->. rewrite lookup_insert_eq. f_equal. lia.
Qed.

Lemma dict_enumerate_size l : NoDup l → size (dict_enumerate l) = length l.
Proof.
  induction l as [|x l IH] using rev_ind; intros Hl; [done|].
  apply NoDup_app in Hl as (Hl & Hx & _).
  rewrite dict_enumerate_snoc, length_app, map_size_insert_None; simpl.
  - rewrite IH by done. lia.
  - apply eq_None_not_Some. intros Hw%dict_enumerate_dom.
    apply (Hx x); [done|by left].
Qed.

Lemma dict_comprehension_lookup {V} (f : string → V) l tok :
  dict_comprehension f l !! tok = if decide (tok ∈ l) then Some (f tok) else None.
Proof.
  unfold dict_comprehension.
  induction l as [|x l IH] using rev_ind.
  { cbn [foldl]. rewrite lookup_empty. case_decide as Hin; [|done].
    by apply elem_of_nil in Hin. }
  rewrite foldl_app. cbn [foldl]. rewrite lookup_insert, IH.
  destruct (decide (x = tok)) as [->|Hne].
  - rewrite decide_True; [done|]. apply elem_of_app. right. by left.
  - destruct (decide (tok ∈ l)) as [Hin|Hnin].
    + rewrite decide_True; [done|]. apply elem_of_app. by left.
    + rewrite decide_False; [done|].
      intros [?|?%list_elem_of_singleton]%elem_of_app; congruence.
Qed.

Lemma Counter_update_lookup_ne c l tok :
  tok ∉ l → Counter_update c l !! tok = c !! tok.
Proof.
  unfold Counter_update. revert c.
  induction l as [|x l IH]; intros c Hl; simpl; [done|].
  apply not_elem_of_cons in Hl as [Hne Hl].
  rewrite IH by done. by rewrite lookup_insert_ne.
Qed.

Lemma Counter_update_lookup_elem c l tok :
  tok ∈ l → is_Some (Counter_update c l !! tok).
Proof.
  unfold Counter_update. revert c.
  induction l as [|x l IH]; intros c; simpl; [by intros ?%elem_of_nil|].
  destruct (decide (tok ∈ l)) as [Hin|Hnin]; [intros _; by apply IH|].
  intros [->|?]%elem_of_cons; [|done].
  pose proof (Counter_update_lookup_ne
                (<[x := (Counter_getitem c x + 1)%Z]> c) l x Hnin) as Heq.
  unfold Counter_update in Heq. rewrite Heq, lookup_insert_eq. eauto.
Qed.

Lemma Counter_subtract_lookup c m tok :
  Counter_subtract c m !! tok =
    match m !! tok with
    | Some n => Some (Counter_getitem c tok - n)%Z
    | None => c !! tok
    end.
Proof.
  unfold Counter_subtract. rewrite lookup_merge.
  unfold diag_None, Counter_getitem.
  destruct (c !! tok), (m !! tok); done.
Qed.

(** What the constructor leaves in the counter it was given: the
    required tokens at [0], every other token as it was. *)
Lemma working_counter_lookup counter specials tok :
  Vocab.working_counter counter specials !! tok =
    if decide (tok ∈ Vocab.required specials) then Some 0%Z else counter !! tok.
Proof.
  unfold Vocab.working_counter.
  rewrite Counter_subtract_lookup, dict_comprehension_lookup.
  case_decide as Hin.
  - f_equal. lia.
  - by apply Counter_update_lookup_ne.
Qed.

(** ** Vocab: the order of the appended tokens *)

Lemma words_and_frequencies_perm counter :
  Vocab.words_and_frequencies counter ≡ₚ map_to_list counter.
Proof.
  unfold Vocab.words_and_frequencies. by rewrite !sorted_perm.
Qed.

Lemma words_and_frequencies_elem counter w f :
  (w, f) ∈ Vocab.words_and_frequencies counter ↔ counter !! w = Some f.
Proof. by rewrite words_and_frequencies_perm, elem_of_map_to_list. Qed.

Lemma words_and_frequencies_NoDup counter :
  NoDup (Vocab.words_and_frequencies counter).*1.
Proof.
  rewrite words_and_frequencies_perm. apply NoDup_fst_map_to_list.
Qed.

Lemma words_and_frequencies_sorted counter :
  StronglySorted Vocab.pair_in_front (Vocab.words_and_frequencies counter).
Proof.
  unfold Vocab.words_and_frequencies.
  eapply StronglySorted_impl_elem; last first.
  - apply (sorted_ranked Z.ltb snd true Z_ltb_trans Z_ltb_cotrans
             (λ a b, String.ltb a.1 b.1 = true)).
    eapply StronglySorted_impl_elem; last first.
    + apply (sorted_ranked String.ltb fst false
               string_ltb_trans string_ltb_cotrans (λ a b, a.1 ≠ b.1)).
      apply NoDup_StronglySorted_ne, NoDup_fst_map_to_list.
    + intros a b _ _ [Hlt|[Hnb Hne]]; [done|].
      destruct (string_ltb_total _ _ Hne) as [?|Hba]; [done|].
      unfold before in *. simpl in *. congruence.
  - intros a b _ _. unfold ranked, before, Vocab.pair_in_front. simpl.
    rewrite Z.ltb_lt, Z.ltb_ge. intros [?|[? ?]]; [by left|].
    destruct (decide (a.2 = b.2)); [by right|left; lia].
Qed.

(** The loop appends the words of a prefix of the sorted pairs, all of
    them frequent enough, and stops at the size bound. *)
Lemma append_loop_spec min_freq max_size waf itos stoi :
  ∃ k, (Vocab.append_loop min_freq max_size waf itos stoi).1
         = itos ++ (take k waf).*1
       ∧ Forall (λ a, (min_freq ≤ a.2)%Z) (take k waf)
       ∧ ∀ m, max_size = Some m → (Z.of_nat (length itos) ≤ m)%Z →
           (Z.of_nat (length (itos ++ (take k waf).*1)) ≤ m)%Z.
Proof.
  revert itos stoi. induction waf as [|[word freq] waf IH]; intros itos stoi.
  { exists 0. simpl. rewrite app_nil_r. by repeat split. }
  simpl. destruct (freq <? min_freq)%Z eqn:Hfreq; simpl.
  { exists 0. simpl. rewrite app_nil_r. by repeat split. }
  destruct (Vocab.len_is itos max_size) eqn:Hlen.
  { exists 0. simpl. rewrite app_nil_r. by repeat split. }
  destruct (IH (itos ++ [word]) (<[word := length (itos ++ [word]) - 1]> stoi))
    as (k & Heq & Hall & Hmax).
  exists (S k). cbn [take fmap list_fmap fst].
  change (itos ++ word :: (take k waf).*1)
    with (itos ++ [word] ++ (take k waf).*1).
  rewrite (app_assoc itos [word]). split; [done|]. split.
  - constructor; [|done]. apply Z.ltb_ge in Hfreq. done.
  - intros m -> Hm. apply Hmax; [done|].
    simpl in Hlen. apply Z.eqb_neq in Hlen. rewrite length_app. simpl. lia.
Qed.

Lemma init_itos counter max_size min_freq specials :
  ∃ k,
    let waf := Vocab.words_and_frequencies
                 (Vocab.working_counter counter specials) in
    Vocab.itos (Vocab.init counter max_size min_freq specials).1
      = Vocab.required specials ++ (take k waf).*1
    ∧ Forall (λ a, (Z.max min_freq 1 ≤ a.2)%Z) (take k waf)
    ∧ ∀ m, max_size = Some m → (0 ≤ m)%Z →
        (Z.of_nat (length (Vocab.required specials ++ (take k waf).*1))
         ≤ m + Z.of_nat (length (Vocab.required specials)))%Z.
Proof.
  unfold Vocab.init.
  set (waf := Vocab.words_and_frequencies _).
  set (ms := _ <$> max_size).
  set (stoi0 := dict_update _ _).
  destruct (append_loop_spec (Z.max min_freq 1) ms waf
              (Vocab.required specials) stoi0) as (k & Heq & Hall & Hmax).
  exists k. destruct (Vocab.append_loop _ _ _ _ _) as [itos stoi] eqn:Hloop.
  simpl in *. split; [done|]. split; [done|].
  intros m -> Hm. apply Hmax; [done|]. simpl. lia.
Qed.


(** A pair that was appended names none of the required tokens and
    carries the count its token has in the caller's table. *)
Lemma appended_pair counter specials min_freq k a :
  let waf := Vocab.words_and_frequencies
               (Vocab.working_counter counter specials) in
  Forall (λ a, (Z.max min_freq 1 ≤ a.2)%Z) (take k waf) →
  a ∈ take k waf →
  (a.1 ∉ Vocab.required specials) ∧ Counter_getitem counter a.1 = a.2
  ∧ (Z.max min_freq 1 ≤ a.2)%Z.
Proof.
  intros waf Hall Ha.
  assert (Z.max min_freq 1 ≤ a.2)%Z as Hfreq.
  { rewrite Forall_forall in Hall. by apply Hall. }
  assert (a ∈ waf) as Hwaf.
  { apply elem_of_take in Ha as (i & Hi & _). by eapply list_elem_of_lookup_2. }
  destruct a as [w f]. simpl in *.
  apply words_and_frequencies_elem in Hwaf.
  rewrite working_counter_lookup in Hwaf.
  case_decide as Hin.
  - injection Hwaf as <-. lia.
  - unfold Counter_getitem. by rewrite Hwaf.
Qed.

(** C1. For every frequency table, [max_size], [min_freq] and list of
    specials, the [itos] of the built vocabulary is ['<unk>'], then the
    specials in the order given, whatever their counts, then tokens in
    descending order of count with equal counts in ascending lexical
    order; none of the appended tokens is a required one and each is at
    least [max(min_freq, 1)] frequent. *)
Theorem Vocab_itos_order counter max_size min_freq specials :
  ∃ rest,
    Vocab.itos (Vocab.init counter max_size min_freq specials).1
      = "<unk>" :: specials ++ rest
    ∧ StronglySorted (Vocab.in_front counter) rest
    ∧ Forall (λ w, (w ∉ Vocab.required specials)
                   ∧ (Z.max min_freq 1 ≤ Counter_getitem counter w)%Z) rest.
Proof.
  destruct (init_itos counter max_size min_freq specials) as (k & Hitos & Hall & _).
  simpl in Hitos, Hall.
  set (waf := Vocab.words_and_frequencies _) in *.
  exists (take k waf).*1. split; [done|]. split.
  - apply StronglySorted_fmap_2.
    eapply StronglySorted_impl_elem;
      [|apply StronglySorted_take, words_and_frequencies_sorted].
    intros a b Ha Hb.
    destruct (appended_pair counter specials min_freq k a Hall Ha) as (_ & Hca & _).
    destruct (appended_pair counter specials min_freq k b Hall Hb) as (_ & Hcb & _).
    unfold Vocab.pair_in_front, Vocab.in_front. rewrite Hca, Hcb. tauto.
  - apply Forall_fmap, Forall_forall. intros a Ha. simpl.
    destruct (appended_pair counter specials min_freq k a Hall Ha) as (? & -> & ?).
    done.
Qed.

(** C6, as the code has it.  For every frequency table, [min_freq],
    specials and non-negative [max_size], the built [itos] keeps the
    whole required prefix and has at most [max_size] tokens after it:
    [len(itos) <= max_size + len(['<unk>'] + specials)]. *)
Theorem Vocab_max_size counter (max_size : Z) min_freq specials :
  (0 ≤ max_size)%Z →
  let itos := Vocab.itos (Vocab.init counter (Some max_size) min_freq specials).1 in
  Vocab.required specials `prefix_of` itos
  ∧ (Z.of_nat (length itos)
     ≤ max_size + Z.of_nat (length (Vocab.required specials)))%Z.
Proof.
  intros Hm.
  destruct (init_itos counter (Some max_size) min_freq specials)
    as (k & Hitos & _ & Hmax).
  simpl in Hitos, Hmax |- *. rewrite Hitos. split.
  - by eexists.
  - by apply Hmax.
Qed.

(** The bound [len(itos) <= max_size] itself fails: with room for one
    token next to a special, three tokens are listed. *)
Lemma Vocab_max_size_exceeded :
  let v := (Vocab.init Example.counter (Some 1%Z) 1 ["<pad>"]).1 in
  Vocab.itos v = ["<unk>"; "<pad>"; "a"]
  ∧ ¬ (Z.of_nat (length (Vocab.itos v)) ≤ 1)%Z.
Proof. vm_compute. split; [done|]. intros H. by apply H. Qed.

Lemma Vocab_max_size_witness :
  (0 ≤ 1)%Z ∧
  let itos := Vocab.itos (Vocab.init Example.counter (Some 1%Z) 1 ["<pad>"]).1 in
  Vocab.required ["<pad>"] `prefix_of` itos
  ∧ (Z.of_nat (length itos) ≤ 1 + Z.of_nat (length (Vocab.required ["<pad>"])))%Z.
Proof.
  split; [lia|]. apply (Vocab_max_size Example.counter 1 1 ["<pad>"]). lia.
Defined.

(** ** Vocab: [stoi] against [itos] *)

Lemma inverse_fresh itos stoi w :
  stoi !! w = None → Vocab.inverse itos stoi →
  Vocab.inverse (itos ++ [w]) (<[w := length (itos ++ [w]) - 1]> stoi).
Proof.
  intros Hw Hinv i w' Hi.
  destruct (decide (i < length itos)) as [Hlt|Hge].
  - rewrite lookup_app_l in Hi by done. apply Hinv in Hi.
    rewrite lookup_insert_ne; [done|]. congruence.
  - rewrite lookup_app_r in Hi by lia.
    destruct (i - length itos) as [|k] eqn:Hk; simpl in Hi; [|done].
    injection Hi as ->. rewrite lookup_insert_eq, length_app. simpl.
    f_equal. lia.
Qed.

Lemma keys_listed_fresh itos (stoi : gmap string nat) w (i : nat) :
  (∀ w', is_Some (stoi !! w') → w' ∈ itos) →
  ∀ w', is_Some (<[w := i]> stoi !! w') → w' ∈ itos ++ [w].
Proof.
  intros Hdom w'. rewrite lookup_insert, elem_of_app, list_elem_of_singleton.
  case_decide; [by right; subst|]. intros ?. left. by apply Hdom.
Qed.

(** Every key of [stoi] stays listed in [itos] through the loop. *)
Lemma append_loop_keys_listed min_freq max_size waf itos stoi :
  (∀ w, is_Some (stoi !! w) → w ∈ itos) →
  let r := Vocab.append_loop min_freq max_size waf itos stoi in
  ∀ w, is_Some (r.2 !! w) → w ∈ r.1.
Proof.
  revert itos stoi. induction waf as [|[word freq] waf IH]; intros itos stoi Hdom.
  { done. }
  simpl. destruct (_ || _); [done|].
  apply IH. by apply keys_listed_fresh.
Qed.

Lemma append_loop_inverse min_freq max_size waf itos stoi :
  NoDup waf.*1 →
  (∀ a, a ∈ waf → a.1 ∈ itos → (a.2 < min_freq)%Z) →
  Vocab.inverse itos stoi → size stoi = length itos →
  (∀ w, is_Some (stoi !! w) → w ∈ itos) →
  let r := Vocab.append_loop min_freq max_size waf itos stoi in
  Vocab.inverse r.1 r.2 ∧ size r.2 = length r.1.
Proof.
  revert itos stoi.
  induction waf as [|[word freq] waf IH]; intros itos stoi Hnd Hold Hinv Hsize Hdom.
  { done. }
  simpl. destruct (freq <? min_freq)%Z eqn:Hfreq; simpl; [done|].
  destruct (Vocab.len_is itos max_size); [done|].
  apply Z.ltb_ge in Hfreq.
  simpl in Hnd. apply NoDup_cons in Hnd as [Hword Hnd].
  assert (word ∉ itos) as Hnew.
  { intros Hin. specialize (Hold (word, freq)). simpl in Hold.
    assert (freq < min_freq)%Z by (apply Hold; [by left|done]). lia. }
  assert (stoi !! word = None) as Hnone.
  { apply eq_None_not_Some. intros ?. by apply Hnew, Hdom. }
  apply IH.
  - done.
  - intros a Ha [Hin|Heq%list_elem_of_singleton]%elem_of_app.
    + apply Hold; [by right|done].
    + exfalso. apply Hword. rewrite <-Heq. by apply list_elem_of_fmap_2.
  - by apply inverse_fresh.
  - rewrite map_size_insert_None, length_app by done. simpl. lia.
  - by apply keys_listed_fresh.
Qed.

Lemma init_keys_listed counter max_size min_freq specials :
  let v := (Vocab.init counter max_size min_freq specials).1 in
  ∀ w, is_Some (Vocab.stoi v !! w) → w ∈ Vocab.itos v.
Proof.
  unfold Vocab.init.
  set (waf := Vocab.words_and_frequencies _).
  set (ms := _ <$> max_size).
  pose proof (append_loop_keys_listed (Z.max min_freq 1) ms waf
    (Vocab.required specials)
    (dict_update ∅ (dict_enumerate (Vocab.required specials)))) as Hloop.
  destruct (Vocab.append_loop _ _ _ _ _) as [itos stoi]. simpl in *.
  apply Hloop. intros w. unfold dict_update. rewrite (right_id_L ∅ (∪)).
  apply dict_enumerate_dom.
Qed.

Lemma init_inverse counter max_size min_freq specials :
  NoDup (Vocab.required specials) →
  let v := (Vocab.init counter max_size min_freq specials).1 in
  Vocab.inverse (Vocab.itos v) (Vocab.stoi v)
  ∧ size (Vocab.stoi v) = length (Vocab.itos v).
Proof.
  intros Hnd. unfold Vocab.init.
  set (wc := Vocab.working_counter counter specials).
  set (ms := _ <$> max_size).
  pose proof (append_loop_inverse (Z.max min_freq 1) ms
    (Vocab.words_and_frequencies wc) (Vocab.required specials)
    (dict_update ∅ (dict_enumerate (Vocab.required specials)))) as Hloop.
  destruct (Vocab.append_loop _ _ _ _ _) as [itos stoi]. simpl in *.
  unfold dict_update in *. rewrite (right_id_L ∅ (∪)) in Hloop.
  apply Hloop.
  - apply words_and_frequencies_NoDup.
  - intros [w f] Ha Hin. simpl in *.
    apply words_and_frequencies_elem in Ha. unfold wc in Ha.
    rewrite working_counter_lookup, decide_True in Ha by done.
    injection Ha as <-. lia.
  - by apply dict_enumerate_inverse.
  - by apply dict_enumerate_size.
  - apply dict_enumerate_dom.
Qed.

Section vocab_steps.
Implicit Types (v : Vocab.t) (w tok : string).

Lemma extend_step_consistent v w :
  Vocab.consistent v → Vocab.consistent (Vocab.extend_step v w).
Proof.
  intros [Hinv Hlen]. unfold Vocab.extend_step.
  destruct (Vocab.stoi v !! w) eqn:Hw; [done|]. split; simpl.
  - by apply inverse_fresh.
  - rewrite map_size_insert_None, length_app by done. simpl. lia.
Qed.

Lemma extend_step_size v w :
  length (Vocab.itos v) = size (Vocab.stoi v) →
  length (Vocab.itos (Vocab.extend_step v w))
  = size (Vocab.stoi (Vocab.extend_step v w)).
Proof.
  intros Hlen. unfold Vocab.extend_step.
  destruct (Vocab.stoi v !! w) eqn:Hw; [done|]. simpl.
  rewrite map_size_insert_None, length_app by done. simpl. lia.
Qed.

Lemma extend_step_defaulted v w :
  Vocab.defaulted v → Vocab.defaulted (Vocab.extend_step v w).
Proof.
  intros Hd. unfold Vocab.extend_step.
  destruct (Vocab.stoi v !! w) eqn:Hw; [done|].
  intros w' i. simpl. rewrite lookup_insert, elem_of_app, list_elem_of_singleton.
  case_decide; [by left; right; subst|].
  intros [?|?]%Hd; [by left; left|by right].
Qed.

Lemma extend_invariant (P : Vocab.t → Prop) v v_itos sort :
  (∀ v w, P v → P (Vocab.extend_step v w)) →
  P v → P (Vocab.extend v v_itos sort).
Proof.
  intros Hstep. unfold Vocab.extend.
  generalize (if sort then sorted String.ltb id false v_itos else v_itos).
  intros words. revert v. induction words as [|w words IH]; intros v Hv.
  - done.
  - simpl. by apply IH, Hstep.
Qed.

Lemma stoi_getitem_consistent v tok :
  Vocab.consistent v → Vocab.consistent (Vocab.stoi_getitem v tok).2.
Proof.
  intros [Hinv Hlen]. unfold Vocab.stoi_getitem.
  destruct (Vocab.stoi v !! tok) eqn:Htok; [done|]. split; simpl.
  - intros i w Hi. apply Hinv in Hi.
    rewrite lookup_insert_ne; [done|]. congruence.
  - rewrite map_size_insert_None by done. lia.
Qed.

Lemma stoi_getitem_defaulted v tok :
  Vocab.defaulted v → Vocab.defaulted (Vocab.stoi_getitem v tok).2.
Proof.
  intros Hd. unfold Vocab.stoi_getitem.
  destruct (Vocab.stoi v !! tok) eqn:Htok; [done|].
  intros w i. simpl. rewrite lookup_insert.
  case_decide; [|by apply Hd]. intros [= <-]. by right.
Qed.

Lemma run_consistent v ops :
  Vocab.consistent v → Vocab.consistent (Vocab.run v ops).
Proof.
  unfold Vocab.run. revert v.
  induction ops as [|[v_itos sort|tok] ops IH]; intros v Hv; simpl.
  - done.
  - apply IH, extend_invariant; [apply extend_step_consistent|done].
  - by apply IH, stoi_getitem_consistent.
Qed.

Lemma run_defaulted v ops :
  Vocab.defaulted v → Vocab.defaulted (Vocab.run v ops).
Proof.
  unfold Vocab.run. revert v.
  induction ops as [|[v_itos sort|tok] ops IH]; intros v Hv; simpl.
  - done.
  - apply IH, extend_invariant; [apply extend_step_defaulted|done].
  - by apply IH, stoi_getitem_defaulted.
Qed.

Lemma run_extend_size v ops :
  Forall Vocab.is_extend ops →
  length (Vocab.itos v) = size (Vocab.stoi v) →
  length (Vocab.itos (Vocab.run v ops)) = size (Vocab.stoi (Vocab.run v ops)).
Proof.
  unfold Vocab.run. intros Hops. revert v.
  induction Hops as [|[v_itos sort|tok] ops Ho Hops IH]; intros v Hv; simpl.
  - done.
  - apply IH.
    by apply (extend_invariant
                (λ v, length (Vocab.itos v) = size (Vocab.stoi v)));
      [apply extend_step_size|].
  - destruct Ho.
Qed.
End vocab_steps.

(** C7, as the code has it.  For a vocabulary built with specials that
    are distinct and differ from ['<unk>'], and after any sequence of
    [extend] calls and [stoi] lookups, [stoi[itos[i]] == i] for every
    valid [i] and [len(itos) <= len(stoi)]; the two lengths are equal
    as long as only [extend] was called. *)
Theorem Vocab_stoi_inverse counter max_size min_freq specials ops :
  NoDup (Vocab.required specials) →
  let v := Vocab.run (Vocab.init counter max_size min_freq specials).1 ops in
  Vocab.inverse (Vocab.itos v) (Vocab.stoi v)
  ∧ length (Vocab.itos v) ≤ size (Vocab.stoi v)
  ∧ (Forall Vocab.is_extend ops → length (Vocab.itos v) = size (Vocab.stoi v)).
Proof.
  intros Hnd.
  destruct (init_inverse counter max_size min_freq specials Hnd) as [Hinv Hsize].
  simpl. split_and!.
  - apply run_consistent. split; [done|lia].
  - apply run_consistent. split; [done|lia].
  - intros Hops. by apply run_extend_size.
Qed.

Lemma Vocab_stoi_inverse_witness :
  NoDup (Vocab.required ["<pad>"]) ∧
  let v := Vocab.run (Vocab.init Example.counter None 2 ["<pad>"]).1
             [Vocab.Extend ["c"; "a"; "zebra"] true] in
  Vocab.inverse (Vocab.itos v) (Vocab.stoi v)
  ∧ length (Vocab.itos v) ≤ size (Vocab.stoi v)
  ∧ length (Vocab.itos v) = size (Vocab.stoi v).
Proof.
  assert (NoDup (Vocab.required ["<pad>"])) as Hnd.
  { unfold Vocab.required. apply (bool_decide_unpack _). vm_compute. exact I. }
  split; [exact Hnd|].
  destruct (Vocab_stoi_inverse Example.counter None 2 ["<pad>"]
              [Vocab.Extend ["c"; "a"; "zebra"] true] Hnd) as (Hinv & Hle & Heq).
  split; [exact Hinv|]. split; [exact Hle|].
  apply Heq. repeat constructor.
Defined.

(** The claim fails as stated in two ways: a lookup of an absent token
    adds a key to [stoi] and no token to [itos]; and a special given
    twice takes two places in [itos] and one key in [stoi]. *)
Lemma Vocab_stoi_not_inverse :
  (let v := Vocab.run (Vocab.init ∅ None 1 []).1 [Vocab.Lookup "a"] in
   length (Vocab.itos v) = 1 ∧ size (Vocab.stoi v) = 2
   ∧ length (Vocab.itos v) ≠ size (Vocab.stoi v))
  ∧ (let v := (Vocab.init ∅ None 1 ["<pad>"; "<pad>"]).1 in
     Vocab.itos v !! 1 = Some "<pad>" ∧ Vocab.stoi v !! "<pad>" = Some 2
     ∧ ¬ Vocab.inverse (Vocab.itos v) (Vocab.stoi v)
     ∧ length (Vocab.itos v) ≠ size (Vocab.stoi v)).
Proof.
  split.
  - vm_compute. split_and!; [done|done|lia].
  - assert (Vocab.itos (Vocab.init ∅ None 1 ["<pad>"; "<pad>"]).1 !! 1
            = Some "<pad>") as Hitos by (by vm_compute).
    assert (Vocab.stoi (Vocab.init ∅ None 1 ["<pad>"; "<pad>"]).1 !! "<pad>"
            = Some 2) as Hstoi by (by vm_compute).
    cbv zeta. split_and!; [done|done| |by vm_compute].
    intros Hinv. specialize (Hinv 1 "<pad>" Hitos). congruence.
Qed.

(** C8. In a vocabulary as built and then extended and looked up in
    any way, the lookup of a token that is no key of [stoi], or is not
    listed in [itos], returns index [0]; the lookup is a total function
    and raises nothing. *)
Theorem Vocab_stoi_unknown counter max_size min_freq specials ops tok :
  let v := Vocab.run (Vocab.init counter max_size min_freq specials).1 ops in
  Vocab.stoi v !! tok = None ∨ tok ∉ Vocab.itos v →
  (Vocab.stoi_getitem v tok).1 = 0.
Proof.
  intros v Htok.
  assert (Vocab.defaulted v) as Hd.
  { apply run_defaulted. intros w i Hw. left.
    apply init_keys_listed. by rewrite Hw. }
  unfold Vocab.stoi_getitem.
  destruct (Vocab.stoi v !! tok) as [i|] eqn:Hi; [|done]. simpl.
  destruct Htok as [?|Hnot]; [done|].
  by destruct (Hd tok i Hi).
Qed.

Lemma Vocab_stoi_unknown_witness :
  let v := Vocab.run (Vocab.init Example.counter None 2 ["<pad>"]).1
             [Vocab.Lookup "zebra"] in
  (Vocab.stoi v !! "zebra" = None ∨ "zebra" ∉ Vocab.itos v)
  ∧ (Vocab.stoi_getitem v "zebra").1 = 0.
Proof.
  assert ("zebra" ∉ Vocab.itos
            (Vocab.run (Vocab.init Example.counter None 2 ["<pad>"]).1
               [Vocab.Lookup "zebra"])) as Hnot.
  { apply (bool_decide_unpack _). vm_compute. exact I. }
  split; [by right|].
  exact (Vocab_stoi_unknown Example.counter None 2 ["<pad>"]
           [Vocab.Lookup "zebra"] "zebra" (or_intror Hnot)).
Defined.

(** C10 is what the constructor should do and does not: it works on
    the counter it was given, so afterwards ['<unk>'] and the specials
    are keys of the caller's counter with count [0], whatever they
    counted before; only [self.freqs] holds the counts as given. *)
Theorem Vocab_init_changes_counter :
  let counter : gmap string Z := <["a" := 5%Z]> (<["<pad>" := 3%Z]> ∅) in
  let r := Vocab.init counter None 1 ["<pad>"] in
  r.2 = <["<unk>" := 0%Z]> (<["<pad>" := 0%Z]> counter)
  ∧ r.2 !! "<pad>" = Some 0%Z ∧ counter !! "<pad>" = Some 3%Z
  ∧ r.2 !! "<unk>" = Some 0%Z ∧ counter !! "<unk>" = None
  ∧ Vocab.freqs r.1 = counter.
Proof. vm_compute. done. Qed.

(** ** Vectors: loading and lookup *)

Section vectors_facts.
Context `{Torch}.
Implicit Types (st : Vectors.parsing) (line : string) (lines : list string).

Lemma check_entries_cases dim word n :
  Vectors.check_entries dim word n =
    if bool_decide (n = 1) then Ok Vectors.Skip
    else match dim with
         | None =>
             if bool_decide (1 < n) then Ok (Vectors.Keep (Some n))
             else Raise (RuntimeError word n None)
         | Some d =>
             if bool_decide (n = d) then Ok (Vectors.Keep (Some d))
             else Raise (RuntimeError word n (Some d))
         end.
Proof.
  unfold Vectors.check_entries.
  destruct dim as [d|]; repeat case_bool_decide; simpl; try done;
    try lia; try congruence.
Qed.

(** A turn of the loop on a line read as text, and on one read as
    bytes. *)
Lemma cache_line_text st line :
  Vectors.cache_line false st line
  = v ← Vectors.check_entries (Vectors.p_dim st) (Vectors.word_of line)
          (length (Vectors.entries_of line));
    match v with
    | Vectors.Skip => Ok st
    | Vectors.Keep dim =>
        xs ← Vectors.floats (Vectors.entries_of line);
        Ok (Vectors.mkParsing (Vectors.p_itos st ++ [Vectors.word_of line])
              (Vectors.p_vectors st ++ xs) dim)
    end.
Proof. done. Qed.

Lemma cache_line_bytes st line :
  Vectors.cache_line true st line = Raise TypeError.
Proof. done. Qed.

(** Nothing is parsed from lines read as bytes. *)
Lemma cache_bytes unk lines :
  Vectors.cache unk None true lines = Raise TypeError.
Proof. unfold Vectors.cache. by destruct lines. Qed.

(** A line with one numeric field is passed over. *)
Lemma cache_line_skip st line :
  length (Vectors.entries_of line) = 1 →
  Vectors.cache_line false st line = Ok st.
Proof.
  intros Hn. rewrite cache_line_text, check_entries_cases, Hn. done.
Qed.

(** A line of another width than the one established stops the
    loop. *)
Lemma cache_line_abort st line d :
  Vectors.p_dim st = Some d →
  length (Vectors.entries_of line) ≠ 1 →
  length (Vectors.entries_of line) ≠ d →
  Vectors.cache_line false st line
  = Raise (RuntimeError (Vectors.word_of line)
             (length (Vectors.entries_of line)) (Some d)).
Proof.
  intros Hd H1 Hne. rewrite cache_line_text, check_entries_cases, Hd.
  by rewrite !bool_decide_eq_false_2.
Qed.

(** What a turn of the loop does to [dim]. *)
Lemma cache_line_dim b st line st' :
  Vectors.cache_line b st line = Ok st' →
  Vectors.p_dim st' =
    match Vectors.p_dim st with
    | Some d => Some d
    | None =>
        if bool_decide (1 < length (Vectors.entries_of line))
        then Some (length (Vectors.entries_of line)) else None
    end.
Proof.
  destruct b; [done|]. rewrite cache_line_text, check_entries_cases.
  destruct (Vectors.p_dim st) as [d|] eqn:Hd;
    repeat case_bool_decide; simpl; try done; try lia;
    try (intros [= <-]; by rewrite Hd);
    destruct (Vectors.floats _); simpl; by intros [= <-].
Qed.

Lemma cache_lines_app b st lines1 lines2 :
  Vectors.cache_lines b st (lines1 ++ lines2)
  = st' ← Vectors.cache_lines b st lines1; Vectors.cache_lines b st' lines2.
Proof.
  revert st. induction lines1 as [|line lines1 IH]; intros st; simpl; [done|].
  destruct (Vectors.cache_line b st line); simpl; [apply IH|done].
Qed.

Lemma cache_lines_dim b st lines st' :
  Vectors.cache_lines b st lines = Ok st' →
  Vectors.p_dim st' =
    match Vectors.p_dim st with
    | Some d => Some d
    | None => Vectors.first_wide lines
    end.
Proof.
  revert st. induction lines as [|line lines IH]; intros st; simpl.
  { intros [= <-]. by destruct (Vectors.p_dim st). }
  destruct (Vectors.cache_line b st line) as [st1|] eqn:Hline; simpl; [|done].
  intros Hrest. rewrite (IH _ Hrest), (cache_line_dim _ _ _ _ Hline).
  destruct (Vectors.p_dim st); [done|]. by case_bool_decide.
Qed.
End vectors_facts.

Section vectors_claims.
Context `{Torch}.
Implicit Types (st : Vectors.parsing) (line : string) (lines : list string).

(** X22. During a load from a file read as text: the table's [dim]
    is the number of numeric fields of the first line that has more
    than one; a line with exactly one numeric field, wherever it
    stands, is passed over and the loop goes on with the state it had;
    and once [dim] is established, a line whose number of numeric
    fields is neither [1] nor [dim] makes the whole load raise the
    dimension error, so that no table comes back. *)
Theorem Vectors_cache_dimension unk :
  (∀ lines t,
      Vectors.cache unk None false lines = Ok t →
      Vectors.first_wide lines = Some (Vectors.dim t))
  ∧ (∀ st line rest,
      length (Vectors.entries_of line) = 1 →
      Vectors.cache_lines false st (line :: rest)
      = Vectors.cache_lines false st rest)
  ∧ (∀ pre line post st d,
      Vectors.cache_lines false Vectors.parsing_start pre = Ok st →
      Vectors.p_dim st = Some d →
      length (Vectors.entries_of line) ≠ 1 →
      length (Vectors.entries_of line) ≠ d →
      Vectors.cache unk None false (pre ++ line :: post)
      = Raise (RuntimeError (Vectors.word_of line)
                 (length (Vectors.entries_of line)) (Some d))).
Proof.
  split_and!.
  - intros lines t. unfold Vectors.cache.
    destruct (Vectors.cache_lines _ _ lines) as [st|] eqn:Hlines; simpl; [|done].
    apply cache_lines_dim in Hlines. simpl in Hlines.
    unfold Vectors.finish, view. rewrite Hlines.
    destruct (Vectors.first_wide lines) as [d|]; simpl; [|done].
    case_bool_decide; simpl; [|done]. by intros [= <-].
  - intros st line rest Hn. cbn [Vectors.cache_lines].
    by rewrite cache_line_skip.
  - intros pre line post st d Hpre Hd H1 Hne. unfold Vectors.cache.
    rewrite cache_lines_app, Hpre. cbn [mbind result_bind Vectors.cache_lines].
    by rewrite (cache_line_abort _ _ d).
Qed.

Lemma floats_length entries xs :
  Vectors.floats entries = Ok xs → length xs = length entries.
Proof.
  revert xs. induction entries as [|x entries IH]; intros xs; simpl.
  { by intros [= <-]. }
  destruct (float x); [|done].
  destruct (Vectors.floats entries) as [vs|]; simpl; [|done].
  intros [= <-]. simpl. f_equal. by apply IH.
Qed.

Lemma cache_line_ok b st line st' :
  Vectors.parsing_ok st → Vectors.cache_line b st line = Ok st' → Vectors.parsing_ok st'.
Proof.
  destruct b; [done|].
  unfold Vectors.parsing_ok. rewrite cache_line_text, check_entries_cases.
  intros Hst. case_bool_decide as H1; simpl.
  { by intros [= <-]. }
  destruct (Vectors.p_dim st) as [d|] eqn:Hd.
  - destruct Hst as [Hd1 Hlen].
    case_bool_decide as Hn; simpl; [|done].
    destruct (Vectors.floats _) as [xs|] eqn:Hxs; simpl; [|done].
    intros [= <-]. simpl. split; [done|].
    rewrite !length_app, (floats_length _ _ Hxs), Hlen, Hn. simpl. lia.
  - destruct Hst as [Hitos Hvec].
    case_bool_decide as Hn; simpl; [|done].
    destruct (Vectors.floats _) as [xs|] eqn:Hxs; simpl; [|done].
    intros [= <-]. simpl. split; [done|].
    rewrite Hitos, Hvec. simpl. rewrite (floats_length _ _ Hxs). lia.
Qed.

Lemma cache_lines_ok b st lines st' :
  Vectors.parsing_ok st → Vectors.cache_lines b st lines = Ok st' → Vectors.parsing_ok st'.
Proof.
  revert st. induction lines as [|line lines IH]; intros st Hst; simpl.
  { by intros [= <-]. }
  destruct (Vectors.cache_line b st line) as [st1|] eqn:Hline; simpl; [|done].
  apply IH. by eapply cache_line_ok.
Qed.

(** A table parsed from a file has one row of [dim] numbers for each
    of its tokens. *)
Lemma cache_shape unk b lines t :
  Vectors.cache unk None b lines = Ok t →
  shape (Vectors.vectors t) = [length (Vectors.itos t); Vectors.dim t]
  ∧ Vectors.stoi t = dict_enumerate (Vectors.itos t)
  ∧ Vectors.unk_init t = unk.
Proof.
  unfold Vectors.cache.
  destruct (Vectors.cache_lines _ _ lines) as [st|] eqn:Hlines; simpl; [|done].
  apply cache_lines_ok in Hlines; [|done].
  unfold Vectors.parsing_ok in Hlines. unfold Vectors.finish, view.
  destruct (Vectors.p_dim st) as [d|]; simpl; [|done].
  destruct Hlines as [Hd Hlen].
  case_bool_decide; simpl; [|done]. intros [= <-]. simpl.
  rewrite Hlen, Nat.div_mul by lia. done.
Qed.
End vectors_claims.

Lemma dict_enumerate_lookup_Some l w i :
  dict_enumerate l !! w = Some i → l !! i = Some w.
Proof.
  induction l as [|x l IH] using rev_ind.
  { unfold dict_enumerate. simpl. by rewrite lookup_empty. }
  rewrite dict_enumerate_snoc, lookup_insert. case_decide; subst.
  - intros [= <-]. by rewrite lookup_app_r, Nat.sub_diag.
  - intros Hw%IH. rewrite lookup_app_l; [done|]. by eapply lookup_lt_Some.
Qed.

Lemma fmap_zero_replicate {A B} (z : B) (l : list A) :
  (λ _, z) <$> l = replicate (length l) z.
Proof. induction l; simpl; by f_equal. Qed.

Section vectors_lookup.
Context `{Torch}.

Lemma Tensor_getitem_row (t : Tensor scalar) rows d i :
  shape t = [rows; d] → i < rows →
  ∃ row, Tensor_getitem t i = Ok row ∧ shape row = [d].
Proof.
  intros Hshape Hi. unfold Tensor_getitem. rewrite Hshape.
  rewrite bool_decide_eq_true_2 by done. by eexists.
Qed.

(** A token in the index of a parsed table has a row. *)
Lemma cache_row unk b lines t token i :
  Vectors.cache unk None b lines = Ok t →
  Vectors.stoi t !! token = Some i →
  Vectors.itos t !! i = Some token
  ∧ ∃ row, Tensor_getitem (Vectors.vectors t) i = Ok row
           ∧ shape row = [Vectors.dim t].
Proof.
  intros (Hshape & Hstoi & _)%cache_shape Hi.
  rewrite Hstoi in Hi. apply dict_enumerate_lookup_Some in Hi.
  split; [done|].
  eapply Tensor_getitem_row; [done|]. by eapply lookup_lt_Some.
Qed.

(** A file without a repeated token is parsed into a table as the
    data model wants it. *)
Lemma cache_table_ok unk b lines t :
  Vectors.cache unk None b lines = Ok t →
  NoDup (Vectors.itos t) → Vectors.table_ok t.
Proof.
  intros Hload Hnd i w Hi.
  destruct (cache_shape _ _ _ _ Hload) as (Hshape & Hstoi & _).
  assert (Vectors.stoi t !! w = Some i) as Hw.
  { rewrite Hstoi. by apply dict_enumerate_inverse. }
  split; [done|]. by apply (cache_row _ _ _ _ _ _ Hload Hw).
Qed.

(** X4. For every table and token, [self[token]] is the row the index
    gives for the token when the token is a key of the index, and
    else what the table's unknown-vector initialiser makes of a fresh
    [1 x dim] tensor, which is all zeros under the default
    initialiser; the table (tokens, index and vectors) is the same
    after the lookup, so nothing is inserted.  In a table parsed from
    a file the row of a token in the index exists and has [dim]
    numbers. *)
Theorem Vectors_getitem_lookup (t : Vectors.t) token :
  (∀ i, Vectors.stoi t !! token = Some i →
        (Vectors.getitem t token).1 = Tensor_getitem (Vectors.vectors t) i)
  ∧ (Vectors.stoi t !! token = None →
     (Vectors.getitem t token).1
     = Ok (Vectors.unk_init t (Tensor_new 1 (Vectors.dim t)))
     ∧ (Vectors.unk_init t = zero_ →
        (Vectors.getitem t token).1
        = Ok (mkTensor [1; Vectors.dim t] (replicate (Vectors.dim t) zero))))
  ∧ (Vectors.getitem t token).2 = t
  ∧ (∀ unk b lines i,
        Vectors.cache unk None b lines = Ok t →
        Vectors.stoi t !! token = Some i →
        ∃ row, (Vectors.getitem t token).1 = Ok row
               ∧ Tensor_getitem (Vectors.vectors t) i = Ok row
               ∧ shape row = [Vectors.dim t]).
Proof.
  unfold Vectors.getitem. split_and!.
  - by intros i ->.
  - intros ->. split; [done|]. intros ->. simpl.
    unfold zero_, Tensor_new. simpl.
    by rewrite fmap_zero_replicate, length_fmap, length_seq, Nat.add_0_r.
  - by destruct (Vectors.stoi t !! token).
  - intros unk b lines i Hload Hi. rewrite Hi. simpl.
    destruct (cache_row _ _ _ _ _ _ Hload Hi) as (_ & row & Hrow & Hshape).
    by exists row.
Qed.
End vectors_lookup.

(** ** enumerate and mapM *)

Lemma enumerate_snd {A} (l : list A) : (enumerate l).*2 = l.
Proof.
  unfold enumerate. apply list_eq. intros i.
  rewrite list_lookup_fmap, list_lookup_imap. by destruct (l !! i).
Qed.

Lemma elem_of_enumerate {A} (l : list A) i x :
  (i, x) ∈ enumerate l ↔ l !! i = Some x.
Proof.
  unfold enumerate. rewrite elem_of_lookup_imap. split.
  - by intros (j & y & [= -> ->] & Hj).
  - intros Hi. by exists i, x.
Qed.

Lemma imap_pair_sorted {A} (g : nat → nat) (l : list A) :
  (∀ i j, i < j → g i < g j) →
  StronglySorted (λ a b, a.1 < b.1) (imap (λ i x, (g i, x)) l).
Proof.
  revert g. induction l as [|x l IH]; intros g Hg; simpl; constructor.
  - apply (IH (g ∘ S)). intros i j Hij. simpl. apply Hg. lia.
  - apply Forall_forall. intros a (j & y & -> & Hj)%elem_of_lookup_imap.
    simpl. apply Hg. lia.
Qed.

Lemma enumerate_sorted {A} (l : list A) :
  StronglySorted (λ a b, a.1 < b.1) (enumerate l).
Proof. by apply (imap_pair_sorted id). Qed.

Lemma mapM_result_Ok {A B} (f : A → result B) (P : nat → A → B → Prop)
    (l : list A) :
  (∀ i x, l !! i = Some x → ∃ y, f x = Ok y ∧ P i x y) →
  ∃ ys, mapM f l = Ok ys ∧ length ys = length l
        ∧ ∀ i y, ys !! i = Some y → ∃ x, l !! i = Some x ∧ P i x y.
Proof.
  revert P. induction l as [|x l IH]; intros P Hf.
  { exists []. by repeat split. }
  destruct (Hf 0 x eq_refl) as (y & Hy & HP).
  destruct (IH (λ i, P (S i))) as (ys & Hys & Hlen & Hall).
  { intros i x' Hi. by apply (Hf (S i)). }
  exists (y :: ys). cbn [mapM]. rewrite Hy. simpl. rewrite Hys. simpl.
  split; [done|]. split; [by f_equal|].
  intros [|i] y' Hi; simpl in *.
  - injection Hi as <-. by exists x.
  - by apply Hall.
Qed.

Lemma Forall_fst_snd {A B} (R : A → B → Prop) (l : list (A * B)) :
  Forall (λ a, R a.1 a.2) l → Forall2 R l.*1 l.*2.
Proof. induction 1; simpl; by constructor. Qed.

(** ** The module-level search *)

Section search_facts.
Context `{Torch}.
Variable glove : Vectors.t.

Lemma get_word_present w i :
  Vectors.stoi glove !! w = Some i →
  get_word glove w = Tensor_getitem (Vectors.vectors glove) i
  ∧ get_word glove w = (Vectors.getitem glove w).1.
Proof.
  intros Hw. unfold get_word, dict_getitem, Vectors.getitem.
  by rewrite Hw.
Qed.

(** Unlike [glove[word]], [get_word] has nothing to fall back on. *)
Lemma get_word_absent w :
  Vectors.stoi glove !! w = None → get_word glove w = Raise (KeyError w).
Proof. intros Hw. unfold get_word, dict_getitem. by rewrite Hw. Qed.

Lemma torch_dist_row vec row d :
  shape row = [d] →
  torch_dist vec row
  = if broadcastable (shape vec) [d] then Ok (dist vec row)
    else Raise TorchError.
Proof. intros Hrow. unfold torch_dist. by rewrite Hrow. Qed.

Lemma all_dists_Ok vec :
  Vectors.table_ok glove →
  broadcastable (shape vec) [Vectors.dim glove] = true →
  ∃ all, mapM (word_dist glove vec) (Vectors.itos glove) = Ok all
         ∧ length all = length (Vectors.itos glove)
         ∧ ∀ i wd, all !! i = Some wd →
             Vectors.itos glove !! i = Some wd.1
             ∧ ∃ row, Tensor_getitem (Vectors.vectors glove) i = Ok row
                      ∧ wd.2 = dist vec row.
Proof.
  intros Hok Hvec.
  destruct (mapM_result_Ok (word_dist glove vec)
    (λ i w wd, wd.1 = w
               ∧ ∃ row, Tensor_getitem (Vectors.vectors glove) i = Ok row
                        ∧ wd.2 = dist vec row)
    (Vectors.itos glove)) as (all & Hall & Hlen & Hrows).
  { intros i w Hi. destruct (Hok i w Hi) as (Hw & row & Hrow & Hshape).
    exists (w, dist vec row). unfold word_dist.
    destruct (get_word_present w i Hw) as [-> _]. rewrite Hrow.
    cbn [mbind result_bind]. rewrite (torch_dist_row _ _ _ Hshape), Hvec.
    split; [done|]. split; [done|]. by exists row. }
  exists all. split; [done|]. split; [done|].
  intros i wd Hi. destruct (Hrows i wd Hi) as (w & Hw & <- & Hrow). done.
Qed.

(** A query that cannot be broadcast against the rows stops the scan
    at the first token. *)
Lemma closest_not_broadcastable vec n :
  Vectors.table_ok glove → Vectors.itos glove ≠ [] →
  broadcastable (shape vec) [Vectors.dim glove] = false →
  closest glove vec n = Raise TorchError.
Proof.
  intros Hok Hne Hvec. unfold closest.
  destruct (Vectors.itos glove) as [|w ws] eqn:Hitos; [done|].
  destruct (Hok 0 w) as (Hw & row & Hrow & Hshape); [by rewrite Hitos|].
  cbn [mapM].
  assert (word_dist glove vec w = Raise TorchError) as ->; [|done].
  unfold word_dist. destruct (get_word_present w 0 Hw) as [-> _].
  rewrite Hrow. cbn [mbind result_bind].
  by rewrite (torch_dist_row _ _ _ Hshape), Hvec.
Qed.

(** The sorted list of (place, token, distance) that [closest] cuts
    its result from. *)
Lemma all_dists_sorted all :
  ordered all.*2 →
  StronglySorted
    (ranked dist_lt (snd ∘ snd) false (λ a b : nat * (string * distance),
                                         a.1 < b.1))
    (sorted dist_lt (snd ∘ snd) false (enumerate all)).
Proof.
  intros [Htrans Hcotrans].
  apply (sorted_ranked_on dist_lt (snd ∘ snd) false (λ d, d ∈ all.*2)).
  - intros a b c. apply Htrans.
  - intros a b c. apply Hcotrans.
  - apply Forall_forall. intros [i wd] Hi%elem_of_enumerate. simpl.
    apply list_elem_of_fmap. exists wd. split; [done|].
    by eapply list_elem_of_lookup_2.
  - apply enumerate_sorted.
Qed.

(** C3. For every table in which each listed token indexes its own row
    of [dim] numbers, every query vector and every [n]: when the query
    can be broadcast against a row, [n >= 0] and [<] orders the
    distances measured, [closest(vec, n)] returns the tokens (with their
    distances) of [min(n, len(table))] rows, in ascending order of
    distance with equal distances in table order, each of them ranked
    in front of every row that was left out; and when the query cannot
    be broadcast against a row, [torch.dist] raises at the first
    token. *)
Theorem closest_nearest vec (n : Z) :
  Vectors.table_ok glove →
  (broadcastable (shape vec) [Vectors.dim glove] = true → (0 ≤ n)%Z →
   (∀ all, mapM (word_dist glove vec) (Vectors.itos glove) = Ok all →
           ordered all.*2) →
   ∃ res, closest glove vec n = Ok res ∧ nearest_rows glove vec n res)
  ∧ (broadcastable (shape vec) [Vectors.dim glove] = false →
     Vectors.itos glove ≠ [] →
     closest glove vec n = Raise TorchError).
Proof.
  intros Hok. split; [|intros Hvec Hne; by apply closest_not_broadcastable].
  intros Hvec Hn Hord.
  destruct (all_dists_Ok vec Hok Hvec) as (all & Hall & Hlen & Hrows).
  set (srt := sorted dist_lt (snd ∘ snd) false (enumerate all)).
  assert (∀ a, a ∈ srt → all !! a.1 = Some a.2) as Helem.
  { intros [i x]. unfold srt. rewrite sorted_perm. apply elem_of_enumerate. }
  assert (StronglySorted
            (ranked dist_lt (snd ∘ snd) false (λ a b, a.1 < b.1)) srt) as Hsrt.
  { apply all_dists_sorted. by apply Hord. }
  assert (∀ a b, a ∈ srt → b ∈ srt →
            ranked dist_lt (snd ∘ snd) false (λ a b, a.1 < b.1) a b →
            closer all.*2 a.1 b.1) as Hcloser.
  { intros a b Ha%Helem Hb%Helem Hab.
    exists a.2.2, b.2.2. rewrite !list_lookup_fmap, Ha, Hb. done. }
  assert (∀ k a, a ∈ take k srt → a ∈ srt) as Htake.
  { intros k a (i & Hi & _)%elem_of_take. by eapply list_elem_of_lookup_2. }
  exists (take (Z.to_nat n) srt).*2. split.
  { unfold closest. rewrite Hall. simpl. f_equal. unfold slice_to.
    rewrite (proj2 (Z.leb_le 0 n) Hn), fmap_take. f_equal.
    unfold srt. by rewrite sorted_fmap, enumerate_snd. }
  exists all.*2, (take (Z.to_nat n) srt).*1.
  split_and!.
  - by rewrite length_fmap.
  - intros i d. rewrite list_lookup_fmap.
    destruct (all !! i) as [wd|] eqn:Hi; simpl; [|done].
    intros [= <-]. by apply Hrows.
  - apply (Forall_fst_snd (λ i wd, Vectors.itos glove !! i = Some wd.1
                                   ∧ all.*2 !! i = Some wd.2)).
    apply Forall_forall. intros a Ha%Htake%Helem.
    rewrite list_lookup_fmap, Ha. split; [|done]. by apply Hrows.
  - rewrite length_fmap, length_take. unfold srt, enumerate.
    by rewrite sorted_length, length_imap, Hlen.
  - apply StronglySorted_fmap_2.
    eapply StronglySorted_impl_elem; [|by apply StronglySorted_take].
    intros a b Ha Hb. apply Hcloser; by eapply Htake.
  - intros i k (a & -> & Ha)%list_elem_of_fmap Hk Hno.
    destruct (lookup_lt_is_Some_2 all k) as [x Hx]; [lia|].
    assert ((k, x) ∈ srt) as Hkx.
    { unfold srt. rewrite sorted_perm. by apply elem_of_enumerate. }
    rewrite <-(take_drop (Z.to_nat n) srt) in Hkx.
    apply elem_of_app in Hkx as [Hin|Hin].
    + exfalso. apply Hno. by apply (list_elem_of_fmap_2 fst) in Hin.
    + apply (Hcloser a (k, x)); [by eapply Htake| |].
      * unfold srt. rewrite sorted_perm. by apply elem_of_enumerate.
      * by eapply StronglySorted_take_drop.
Qed.
End search_facts.

(** ** Counting occurrences *)

Lemma list_count_split (u : string) (words : list string) :
  length words = list_count u words + length (filter (λ y, y ≠ u) words).
Proof.
  unfold list_count. induction words as [|w words IH]; [done|].
  rewrite !filter_cons. destruct (decide (w = u)), (decide (w ≠ u)); simpl;
    try done; lia.
Qed.

Lemma list_count_filter_ne (u u' : string) (words : list string) :
  u' ≠ u → list_count u' (filter (λ y, y ≠ u) words) = list_count u' words.
Proof.
  intros Hne. unfold list_count. f_equal.
  induction words as [|w words IH]; [done|].
  rewrite !filter_cons. destruct (decide (w ≠ u)) as [Hw|Hw].
  - rewrite filter_cons. destruct (decide (w = u')); by rewrite IH.
  - rewrite decide_False; [done|]. intros ->. by apply Hw.
Qed.

Lemma list_count_pos (u : string) (words : list string) :
  u ∈ words → 0 < list_count u words.
Proof.
  intros Hu. unfold list_count.
  assert (u ∈ filter (λ y, y = u) words) as Hin by by apply list_elem_of_filter.
  destruct (filter _ words); [by apply elem_of_nil in Hin|simpl; lia].
Qed.

(** The counts of the distinct words add up to the number of words. *)
Lemma list_count_total (words unique_words : list string) :
  NoDup unique_words → (∀ w, w ∈ unique_words ↔ w ∈ words) →
  foldr Z.add 0%Z ((λ u, Z.of_nat (list_count u words)) <$> unique_words)
  = Z.of_nat (length words).
Proof.
  revert words. induction unique_words as [|u us IH]; intros words Hnd Hsame.
  { destruct words as [|w words]; [done|].
    exfalso. apply (elem_of_nil w), Hsame. by left. }
  apply NoDup_cons in Hnd as [Hu Hnd]. simpl.
  rewrite (list_count_split u words), Nat2Z.inj_add.
  rewrite <-(IH (filter (λ y, y ≠ u) words)); [|done|].
  - f_equal. f_equal. apply list_fmap_ext. intros i u' Hu'.
    rewrite list_count_filter_ne; [done|].
    intros ->. apply Hu. by eapply list_elem_of_lookup_2.
  - intros w. rewrite list_elem_of_filter. split.
    + intros Hw. split; [by intros ->|]. apply Hsame. by right.
    + intros [Hne [?|?]%Hsame%elem_of_cons]; done.
Qed.

Section aggregate_facts.
Context `{Torch}.
Variable glove : Vectors.t.

Lemma aggregate_loop_terms pre_u pre_o us os sum :
  length pre_u = length pre_o → length us = length os →
  aggregate_loop glove (pre_u ++ us) (pre_o ++ os) sum
    (seq (length pre_u) (length us))
  = terms ← mapM (weighted_term glove) (zip us os);
    Ok (foldl iadd sum terms).
Proof.
  revert os pre_u pre_o sum.
  induction us as [|u us IH]; intros [|o os] pre_u pre_o sum Hpre Hlen;
    try done.
  cbn [length seq aggregate_loop zip zip_with mapM].
  unfold aggregate_step, list_getitem.
  rewrite !lookup_app_r by lia. rewrite Hpre, !Nat.sub_diag.
  cbn [lookup list_lookup mbind result_bind].
  change (weighted_term glove (u, o))
    with (get_word glove (lower u) ≫= λ v, Ok (mul v o)).
  destruct (get_word glove (lower u)) as [v|e]; cbn [mbind result_bind];
    [|done].
  rewrite <-Hpre.
  replace (S (length pre_u)) with (length (pre_u ++ [u]))
    by (rewrite length_app; simpl; lia).
  rewrite (cons_middle u pre_u us), (cons_middle o pre_o os), !app_assoc.
  rewrite IH by (rewrite ?length_app; simpl in *; lia).
  by destruct (mapM _ _).
Qed.

Lemma zip_fmap_self {A B} (f : A → B) (l : list A) :
  zip l (f <$> l) = (λ x, (x, f x)) <$> l.
Proof. induction l; simpl; by f_equal. Qed.

Lemma token_counts_fmap words unique_words :
  token_counts words unique_words
  = (λ u, (u, Z.of_nat (list_count u words))) <$> unique_words.
Proof. unfold token_counts, occurence. apply zip_fmap_self. Qed.

Lemma token_counts_total words unique_words :
  is_listing words unique_words →
  total (token_counts words unique_words) = Z.of_nat (length words).
Proof.
  intros [Hnd Hsame]. unfold total.
  rewrite token_counts_fmap, <-list_fmap_compose.
  by apply list_count_total.
Qed.

(** A mapping built from the words has no zero count. *)
Lemma token_counts_zero words unique_words :
  is_listing words unique_words →
  Forall (λ tc, tc.2 = 0%Z) (token_counts words unique_words) →
  unique_words = [].
Proof.
  intros [_ Hsame] Hzero. destruct unique_words as [|u us]; [done|].
  rewrite token_counts_fmap in Hzero. apply Forall_cons in Hzero as [Hu _].
  simpl in Hu. assert (u ∈ words) as Hin%list_count_pos by (apply Hsame; by left).
  lia.
Qed.

Lemma total_ones tokenCounts :
  Forall (λ tc, tc.2 = 1%Z) tokenCounts →
  total tokenCounts = Z.of_nat (length tokenCounts).
Proof.
  unfold total. induction 1 as [|[t c] tcs Hc Htcs IH]; [done|].
  cbn [fmap list_fmap foldr length snd] in *. rewrite IH, Hc. lia.
Qed.

Lemma total_lowered tokenCounts : total (lowered tokenCounts) = total tokenCounts.
Proof. unfold total, lowered. by rewrite <-list_fmap_compose. Qed.

(** The aggregate of lines 336-345 as a sum of the code's terms. *)
Lemma aggregate_terms words u us :
  aggregate glove words (u :: us)
  = t ← weighted_term glove (u, Z.of_nat (list_count u words));
    ts ← mapM (weighted_term glove) (token_counts words us);
    Ok (div (foldl iadd t ts) (Z.of_nat (length words))).
Proof.
  unfold aggregate, token_counts.
  cbn [occurence fmap list_fmap list_getitem lookup list_lookup
       length mbind result_bind].
  change (weighted_term glove (u, Z.of_nat (list_count u words)))
    with (get_word glove (lower u)
          ≫= λ v, Ok (mul v (Z.of_nat (list_count u words)))).
  destruct (get_word glove (lower u)) as [v|e]; cbn [mbind result_bind];
    [|done].
  replace (S (length us) - 1) with (length us) by lia.
  pose proof (aggregate_loop_terms [u] [Z.of_nat (list_count u words)]
                us (occurence words us)
                (mul v (Z.of_nat (list_count u words)))) as Hloop.
  simpl in Hloop. unfold occurence in *. rewrite Hloop
    by (by rewrite ?length_fmap).
  by destruct (mapM _ _).
Qed.

(** On a token of the table the code's lookup is [vectorOf]. *)
Lemma weighted_term_known tc :
  is_Some (Vectors.stoi glove !! lower tc.1) →
  weighted_term glove tc = vector_term glove (lower tc.1, tc.2).
Proof.
  intros [i Hi]. unfold weighted_term, vector_term, vectorOf. cbn [fst snd].
  rewrite Hi. by destruct (get_word_present glove _ _ Hi) as [-> _].
Qed.

Lemma weighted_terms_known tokenCounts :
  Forall (λ tc, is_Some (Vectors.stoi glove !! lower tc.1)) tokenCounts →
  mapM (weighted_term glove) tokenCounts
  = mapM (vector_term glove) (lowered tokenCounts).
Proof.
  induction 1 as [|tc tcs Htc _ IH]; [done|].
  cbn [lowered fmap list_fmap mapM]. fold (lowered tcs).
  by rewrite IH, (weighted_term_known tc Htc).
Qed.

Lemma vector_terms_ones tokenCounts :
  (∀ t, mul t 1 = t) → Forall (λ tc, tc.2 = 1%Z) tokenCounts →
  mapM (vector_term glove) tokenCounts = mapM (vectorOf glove) tokenCounts.*1.
Proof.
  intros Hmul. induction 1 as [|[t c] tcs Hc Htcs IH]; [done|].
  simpl in Hc. subst c. cbn [mapM fmap list_fmap]. rewrite IH.
  unfold vector_term. simpl.
  destruct (vectorOf glove t); simpl; [|done]. by rewrite Hmul.
Qed.

(** X23. For every table and every list of target words whose
    lower-case forms are all in the table, however [list(set(words))]
    orders the distinct words: the aggregate of lines 336-345 is the
    [weightedAggregate] of the specification on the counts of the
    words, the sum over the tokens of [vectorOf(token) * count] divided
    by the sum of the counts, which is the number of words and not the
    number of distinct ones; with no word there is no result on either
    side; and when every count is [1] it is the unweighted mean of the
    vectors. *)
Theorem aggregate_weighted_mean words unique_words :
  is_listing words unique_words →
  let tokenCounts := lowered (token_counts words unique_words) in
  total tokenCounts = Z.of_nat (length words)
  ∧ (words ≠ [] →
     Forall (λ u, is_Some (Vectors.stoi glove !! lower u)) unique_words →
     weightedAggregate glove tokenCounts
     = Some (aggregate glove words unique_words)
     ∧ ((∀ t, mul t 1 = t) → Forall (λ tc, tc.2 = 1%Z) tokenCounts →
        unweighted_mean glove (lower <$> unique_words)
        = Some (aggregate glove words unique_words)))
  ∧ (words = [] →
     weightedAggregate glove tokenCounts = None
     ∧ aggregate glove words unique_words = Raise IndexError).
Proof.
  intros Hlist tokenCounts.
  assert (total tokenCounts = Z.of_nat (length words)) as Htotal.
  { unfold tokenCounts. rewrite total_lowered. by apply token_counts_total. }
  split; [done|]. split.
  - intros Hwords Hknown.
    destruct unique_words as [|u us] eqn:Hunique.
    { exfalso. destruct Hlist as [_ Hsame]. destruct words as [|w ws]; [done|].
      apply (elem_of_nil w), Hsame. by left. }
    assert (Forall (λ tc, is_Some (Vectors.stoi glove !! lower tc.1))
              (token_counts words us)) as Hrest.
    { rewrite token_counts_fmap. apply Forall_fmap.
      by apply Forall_cons in Hknown as [_ ?]. }
    assert (weighted_term glove (u, Z.of_nat (list_count u words))
            = vector_term glove (lower u, Z.of_nat (list_count u words)))
      as Hfirst.
    { apply (weighted_term_known (u, _)). by apply Forall_cons in Hknown as [? _]. }
    assert (tokenCounts
            = (lower u, Z.of_nat (list_count u words))
              :: lowered (token_counts words us)) as Hcounts.
    { unfold tokenCounts. by rewrite !token_counts_fmap. }
    assert (¬ Forall (λ tc, tc.2 = 0%Z) tokenCounts) as Hpos.
    { rewrite Hcounts. intros [Hu _]%Forall_cons. simpl in Hu.
      assert (u ∈ words) as Hin%list_count_pos; [|lia].
      destruct Hlist as [_ Hsame]. apply Hsame. by left. }
    split.
    + rewrite aggregate_terms, Hfirst, (weighted_terms_known _ Hrest).
      unfold weightedAggregate. rewrite Hcounts at 1.
      rewrite bool_decide_eq_false_2 by done. by rewrite Htotal.
    + intros Hmul Hones.
      rewrite aggregate_terms, Hfirst, (weighted_terms_known _ Hrest).
      rewrite Hcounts in Hones. apply Forall_cons in Hones as [Hu Hones].
      simpl in Hu. rewrite Hu.
      rewrite (vector_terms_ones _ Hmul Hones).
      assert ((lowered (token_counts words us)).*1 = lower <$> us) as ->.
      { unfold lowered. rewrite token_counts_fmap, <-!list_fmap_compose.
        done. }
      assert (Z.of_nat (length words)
              = Z.of_nat (length (lower <$> u :: us))) as ->.
      { rewrite <-Htotal, Hcounts.
        rewrite (total_ones ((lower u, _) :: _)) by (by constructor).
        unfold lowered. rewrite token_counts_fmap.
        cbn [length]. by rewrite !length_fmap. }
      cbn [unweighted_mean fmap list_fmap]. unfold vector_term at 1. simpl.
      destruct (vectorOf glove (lower u)); simpl; [|done]. by rewrite Hmul.
  - intros ->. destruct Hlist as [_ Hsame].
    destruct unique_words as [|u us]; [done|].
    exfalso. apply (elem_of_nil u), Hsame. by left.
Qed.
End aggregate_facts.

Lemma filter_none {A} (P : A → Prop) `{∀ x, Decision (P x)} (l : list A) :
  (∀ x, x ∈ l → ¬ P x) → filter P l = [].
Proof.
  induction l as [|x l IH]; intros Hl; [done|].
  rewrite filter_cons, decide_False by (apply Hl; by left).
  apply IH. intros y Hy. apply Hl. by right.
Qed.

Section intersection_facts.
Context `{Torch}.
Variable glove : Vectors.t.

Lemma set_and_made_by call call' a b :
  call ≠ call' → set_and (made_by call a) (made_by call' b) = [].
Proof.
  intros Hne. unfold set_and. apply filter_none.
  intros x (j & wd & -> & _)%elem_of_lookup_imap
           (j' & wd' & [= ? _ _] & _)%elem_of_lookup_imap.
  done.
Qed.

Lemma intersection_loop_nil n words range res :
  intersection_loop glove n words [] range = Ok res → res = [].
Proof.
  revert res. induction range as [|i range IH]; intros res; simpl.
  { by intros [= <-]. }
  destruct (list_getitem words i) as [w|]; simpl; [|done].
  destruct (neighbours glove n w) as [near|]; simpl; [|done].
  apply IH.
Qed.

(** What lines 348-350 compute: nothing.  The tensors of one call of
    [closest] are not those of another, so the first intersection
    already drops every tuple, whatever the words and the table are. *)
Lemma intersection_empty n words res :
  intersection glove n words = Ok res → res = [].
Proof.
  unfold intersection, list_getitem. destruct words as [|w0 ws]; [done|].
  cbn [lookup list_lookup mbind result_bind length seq intersection_loop].
  unfold list_getitem. cbn [lookup list_lookup mbind result_bind].
  destruct (neighbours glove n w0) as [first|e]; cbn [mbind result_bind];
    [|done].
  rewrite set_and_made_by by done.
  destruct (intersection_loop _ _ _ _ _) as [res'|] eqn:Hloop;
    cbn [mbind result_bind]; [|done].
  apply intersection_loop_nil in Hloop as ->. by intros [= <-].
Qed.
End intersection_facts.

(** * Further properties *)

(** ** Vocab: extend, lookups and the size bound *)

Section vocab_more.
Implicit Types (v : Vocab.t) (w tok : string).

Lemma extend_step_keeps v w w' i :
  Vocab.stoi v !! w' = Some i →
  Vocab.stoi (Vocab.extend_step v w) !! w' = Some i.
Proof.
  intros Hw'. unfold Vocab.extend_step.
  destruct (Vocab.stoi v !! w) eqn:Hw; [done|]. simpl.
  rewrite lookup_insert_ne; [done|]. congruence.
Qed.

Lemma extend_step_prefix v0 v w :
  Vocab.itos v0 `prefix_of` Vocab.itos v →
  Vocab.itos v0 `prefix_of` Vocab.itos (Vocab.extend_step v w).
Proof.
  intros Hpre. unfold Vocab.extend_step.
  destruct (Vocab.stoi v !! w); [done|]. simpl.
  by apply prefix_app_r.
Qed.

(** X1. [extend] never renumbers: the tokens listed before are the
    first tokens listed after, in the same places, every key of [stoi]
    keeps its index, and the vocabulary does not get shorter. *)
Theorem Vocab_extend_keeps v v_itos sort :
  Vocab.itos v `prefix_of` Vocab.itos (Vocab.extend v v_itos sort)
  ∧ VocabMethods.__len__ v ≤ VocabMethods.__len__ (Vocab.extend v v_itos sort)
  ∧ ∀ w i, Vocab.stoi v !! w = Some i →
      Vocab.stoi (Vocab.extend v v_itos sort) !! w = Some i.
Proof.
  assert (Vocab.itos v `prefix_of` Vocab.itos (Vocab.extend v v_itos sort))
    as Hpre.
  { apply (extend_invariant (λ v', Vocab.itos v `prefix_of` Vocab.itos v'));
      [intros; by apply extend_step_prefix|done]. }
  split_and!; [done|by apply prefix_length|].
  intros w i Hw.
  apply (extend_invariant (λ v', Vocab.stoi v' !! w = Some i));
    [intros; by apply extend_step_keeps|done].
Qed.

Lemma foldl_extend_step_is_Some v words w :
  is_Some (Vocab.stoi v !! w) →
  is_Some (Vocab.stoi (foldl Vocab.extend_step v words) !! w).
Proof.
  revert v. induction words as [|w' words IH]; intros v [i Hi]; simpl.
  - by exists i.
  - apply IH. exists i. by apply extend_step_keeps.
Qed.

Lemma foldl_extend_step_covers v words w :
  w ∈ words → is_Some (Vocab.stoi (foldl Vocab.extend_step v words) !! w).
Proof.
  revert v. induction words as [|w' words IH]; intros v.
  { by intros ?%elem_of_nil. }
  destruct (decide (w = w')) as [->|Hne].
  - intros _. simpl. apply foldl_extend_step_is_Some.
    unfold Vocab.extend_step.
    destruct (Vocab.stoi v !! w') eqn:Hw'; [by rewrite Hw'|].
    simpl. rewrite lookup_insert_eq. eauto.
  - intros [?|Hin]%elem_of_cons; [done|]. simpl. by apply IH.
Qed.

Lemma foldl_extend_step_known v words :
  (∀ w, w ∈ words → is_Some (Vocab.stoi v !! w)) →
  foldl Vocab.extend_step v words = v.
Proof.
  induction words as [|w words IH]; intros Hknown; simpl; [done|].
  assert (Vocab.extend_step v w = v) as ->.
  { unfold Vocab.extend_step.
    destruct (Hknown w) as [i ->]; [by left|done]. }
  apply IH. intros w' Hw'. apply Hknown. by right.
Qed.

(** X2. After [extend], every token of the other vocabulary is a key
    of [stoi], and extending once more with the same vocabulary changes
    nothing. *)
Theorem Vocab_extend_covers v v_itos sort :
  (∀ w, w ∈ v_itos →
        is_Some (Vocab.stoi (Vocab.extend v v_itos sort) !! w))
  ∧ Vocab.extend (Vocab.extend v v_itos sort) v_itos sort
    = Vocab.extend v v_itos sort.
Proof.
  unfold Vocab.extend.
  set (words := if sort then sorted String.ltb id false v_itos else v_itos).
  assert (∀ w, w ∈ v_itos → w ∈ words) as Hwords.
  { intros w Hw. unfold words. destruct sort; [|done]. by rewrite sorted_perm. }
  split.
  - intros w Hw. by apply foldl_extend_step_covers, Hwords.
  - apply foldl_extend_step_known. intros w Hw.
    apply foldl_extend_step_covers. done.
Qed.

Lemma in_range_fresh itos stoi w :
  in_range itos stoi →
  in_range (itos ++ [w]) (<[w := length (itos ++ [w]) - 1]> stoi).
Proof.
  intros [Hpos Hin]. split; rewrite length_app; simpl; [lia|].
  intros w' i. rewrite lookup_insert. case_decide.
  - intros [= <-]. lia.
  - intros Hi%Hin. lia.
Qed.

Lemma append_loop_in_range min_freq max_size waf itos stoi :
  in_range itos stoi →
  let r := Vocab.append_loop min_freq max_size waf itos stoi in
  in_range r.1 r.2.
Proof.
  revert itos stoi. induction waf as [|[word freq] waf IH]; intros itos stoi Hin.
  { done. }
  simpl. destruct (_ || _); [done|].
  by apply IH, in_range_fresh.
Qed.

Lemma init_in_range counter max_size min_freq specials :
  let v := (Vocab.init counter max_size min_freq specials).1 in
  in_range (Vocab.itos v) (Vocab.stoi v).
Proof.
  unfold Vocab.init.
  set (waf := Vocab.words_and_frequencies _).
  set (ms := _ <$> max_size).
  pose proof (append_loop_in_range (Z.max min_freq 1) ms waf
    (Vocab.required specials)
    (dict_update ∅ (dict_enumerate (Vocab.required specials)))) as Hloop.
  destruct (Vocab.append_loop _ _ _ _ _) as [itos stoi]. simpl in *.
  apply Hloop. unfold dict_update. rewrite (right_id_L ∅ (∪)).
  split; [simpl; lia|].
  intros w i Hi%dict_enumerate_lookup_Some. by eapply lookup_lt_Some.
Qed.

Lemma run_in_range v ops :
  in_range (Vocab.itos v) (Vocab.stoi v) →
  in_range (Vocab.itos (Vocab.run v ops)) (Vocab.stoi (Vocab.run v ops)).
Proof.
  unfold Vocab.run. revert v.
  induction ops as [|[v_itos sort|tok] ops IH]; intros v Hv; simpl.
  - done.
  - apply IH.
    apply (extend_invariant
             (λ v, in_range (Vocab.itos v) (Vocab.stoi v))); [|done].
    intros v' w Hv'. unfold Vocab.extend_step.
    destruct (Vocab.stoi v' !! w); [done|]. by apply in_range_fresh.
  - apply IH. unfold Vocab.stoi_getitem.
    destruct (Vocab.stoi v !! tok); [done|]. simpl.
    destruct Hv as [Hpos Hin]. split; [done|].
    intros w i. rewrite lookup_insert. case_decide; [|by apply Hin].
    by intros [= <-].
Qed.

(** X3. In a vocabulary as built and then extended and looked up in
    any way, with any specials, every index that [stoi] holds is a
    valid place of [itos]; with specials that are distinct and differ
    from ['<unk>'], no token is listed twice. *)
Theorem Vocab_stoi_in_range counter max_size min_freq specials ops :
  let v := Vocab.run (Vocab.init counter max_size min_freq specials).1 ops in
  (∀ w i, Vocab.stoi v !! w = Some i → i < VocabMethods.__len__ v)
  ∧ (NoDup (Vocab.required specials) → NoDup (Vocab.itos v)).
Proof.
  intros v. split.
  - apply run_in_range, init_in_range.
  - intros Hnd.
    destruct (init_inverse counter max_size min_freq specials Hnd)
      as [Hinv Hsize].
    assert (Vocab.consistent v) as [Hv _].
    { apply run_consistent. split; [done|lia]. }
    apply NoDup_alt. intros i j w Hi%Hv Hj%Hv. congruence.
Qed.

(** Where the loop stops: at the end of the pairs, at a pair that is
    too rare, or at the size bound. *)
Lemma append_loop_stop min_freq max_size waf itos stoi :
  ∃ k, let r := Vocab.append_loop min_freq max_size waf itos stoi in
       r.1 = itos ++ (take k waf).*1
       ∧ Forall (λ a, (min_freq ≤ a.2)%Z) (take k waf)
       ∧ (∀ a, waf !! k = Some a →
            (a.2 < min_freq)%Z ∨ Vocab.len_is r.1 max_size = true).
Proof.
  revert itos stoi. induction waf as [|[word freq] waf IH]; intros itos stoi.
  { exists 0. simpl. rewrite app_nil_r. by repeat split. }
  simpl. destruct (freq <? min_freq)%Z eqn:Hfreq; simpl.
  { exists 0. simpl. rewrite app_nil_r. split; [done|]. split; [done|].
    intros a [= <-]. left. simpl. by apply Z.ltb_lt. }
  destruct (Vocab.len_is itos max_size) eqn:Hlen.
  { exists 0. simpl. rewrite app_nil_r. split; [done|]. split; [done|].
    intros a _. by right. }
  destruct (IH (itos ++ [word]) (<[word := length (itos ++ [word]) - 1]> stoi))
    as (k & Heq & Hall & Hstop).
  exists (S k). cbn [take fmap list_fmap fst lookup list_lookup] in *.
  change (itos ++ word :: (take k waf).*1)
    with (itos ++ [word] ++ (take k waf).*1).
  rewrite (app_assoc itos [word]). split; [done|]. split; [|done].
  constructor; [|done]. by apply Z.ltb_ge in Hfreq.
Qed.

(** X5. Unless the loop stopped at the size bound, the vocabulary
    lists exactly the required tokens and the tokens that the caller's
    table counts at least [max(min_freq, 1)] times: stopping at the
    first token that is too rare loses none that is frequent enough. *)
Theorem Vocab_init_complete counter max_size min_freq specials :
  let itos := Vocab.itos (Vocab.init counter max_size min_freq specials).1 in
  ¬ bound_hit max_size specials itos →
  ∀ w, w ∈ itos ↔
       w ∈ Vocab.required specials
       ∨ (Z.max min_freq 1 ≤ Counter_getitem counter w)%Z.
Proof.
  unfold Vocab.init.
  set (wc := Vocab.working_counter counter specials).
  set (waf := Vocab.words_and_frequencies wc).
  set (ms := _ <$> max_size).
  destruct (append_loop_stop (Z.max min_freq 1) ms waf (Vocab.required specials)
    (dict_update ∅ (dict_enumerate (Vocab.required specials))))
    as (k & Heq & Hall & Hstop).
  destruct (Vocab.append_loop _ _ _ _ _) as [itos stoi].
  cbn [fst snd Vocab.itos] in *. cbv zeta. rewrite Heq in Hstop |- *.
  intros Hbound w. rewrite elem_of_app. split.
  - intros [?|(a & -> & Ha)%list_elem_of_fmap]; [by left|]. right.
    destruct (appended_pair counter specials min_freq k a Hall Ha)
      as (_ & -> & ?). done.
  - intros [?|Hfreq]; [by left|].
    destruct (decide (w ∈ Vocab.required specials)) as [?|Hnot]; [by left|].
    right.
    destruct (counter !! w) as [f|] eqn:Hw; unfold Counter_getitem in Hfreq;
      rewrite Hw in Hfreq; simpl in Hfreq; [|lia].
    assert ((w, f) ∈ waf) as Hin.
    { apply words_and_frequencies_elem. unfold wc.
      by rewrite working_counter_lookup, decide_False. }
    apply list_elem_of_lookup in Hin as [j Hj].
    apply (list_elem_of_fmap_2' fst _ (w, f)); [|done].
    apply elem_of_take. exists j. split; [done|].
    destruct (decide (j < k)) as [?|Hge]; [done|]. exfalso.
    destruct (lookup_lt_is_Some_2 waf k) as [a Ha].
    { apply lookup_lt_Some in Hj. lia. }
    destruct (Hstop a Ha) as [Hrare|Hlen].
    + assert (f ≤ a.2)%Z; [|lia].
      destruct (decide (j = k)) as [->|Hne]; [by simplify_eq|].
      assert (Vocab.pair_in_front a (w, f)) as [?|[? _]]; [|simpl in *; lia..].
      apply (StronglySorted_take_drop Vocab.pair_in_front waf (S k)).
      * apply words_and_frequencies_sorted.
      * apply elem_of_take. exists k. split; [done|lia].
      * apply list_elem_of_lookup. exists (j - S k).
        rewrite lookup_drop. rewrite <-Hj. f_equal. lia.
    + apply Hbound. unfold ms, Vocab.len_is, bound_hit in *.
      destruct max_size as [m|]; [|done].
      cbn [fmap option_fmap option_map] in Hlen. by apply Z.eqb_eq in Hlen.
Qed.

(** X6. Looking up a token that [stoi] does not hold makes the
    vocabulary unequal to what it was: the lookup adds the token to the
    [defaultdict] that [__eq__] compares. *)
Theorem Vocab_lookup_breaks_eq v tok :
  Vocab.stoi v !! tok = None →
  VocabMethods.__eq__ v v = true
  ∧ VocabMethods.__eq__ (Vocab.stoi_getitem v tok).2 v = false
  ∧ VocabMethods.__eq__ v (Vocab.stoi_getitem v tok).2 = false.
Proof.
  intros Htok. unfold VocabMethods.__eq__, Vocab.stoi_getitem. rewrite Htok.
  simpl.
  assert (<[tok := _default_unk_index]> (Vocab.stoi v) ≠ Vocab.stoi v) as Hne.
  { intros Heq. assert (<[tok := _default_unk_index]> (Vocab.stoi v) !! tok
                        = None) as Hl by (by rewrite Heq).
    by rewrite lookup_insert_eq in Hl. }
  split_and!.
  - by rewrite !bool_decide_eq_false_2 by (intros H; by apply H).
  - rewrite (bool_decide_eq_false_2 (_ ≠ _)) by (intros H; by apply H).
    by rewrite bool_decide_eq_true_2.
  - rewrite (bool_decide_eq_false_2 (_ ≠ _)) by (intros H; by apply H).
    by rewrite bool_decide_eq_true_2.
Qed.
End vocab_more.


(** ** Vectors: what a parse produces *)

Lemma dict_enumerate_elem l w :
  w ∈ l → is_Some (dict_enumerate l !! w).
Proof.
  induction l as [|x l IH] using rev_ind; [by intros ?%elem_of_nil|].
  rewrite dict_enumerate_snoc, lookup_insert. case_decide; [by eauto|].
  intros [?|?%list_elem_of_singleton]%elem_of_app; [by apply IH|congruence].
Qed.

Lemma dict_enumerate_last l w i j :
  dict_enumerate l !! w = Some i → l !! j = Some w → j ≤ i.
Proof.
  revert i j. induction l as [|x l IH] using rev_ind; intros i j; [done|].
  rewrite dict_enumerate_snoc, lookup_insert. case_decide; subst.
  - intros [= <-] Hj%lookup_lt_Some. rewrite length_app in Hj. simpl in Hj. lia.
  - intros Hi Hj. apply (IH i j Hi).
    destruct (decide (j < length l)) as [?|Hge]; [by rewrite lookup_app_l in Hj|].
    rewrite lookup_app_r in Hj by lia.
    destruct (j - length l); simpl in Hj; [congruence|done].
Qed.

Section parse_facts.
Context `{Torch}.
Implicit Types (st : Vectors.parsing) (line : string) (lines : list string).

Lemma cache_finish unk b lines t :
  Vectors.cache unk None b lines = Ok t →
  ∃ st, Vectors.cache_lines b Vectors.parsing_start lines = Ok st
        ∧ Vectors.parsing_ok st
        ∧ Vectors.p_dim st = Some (Vectors.dim t)
        ∧ Vectors.itos t = Vectors.p_itos st
        ∧ data (Vectors.vectors t) = Vectors.p_vectors st.
Proof.
  unfold Vectors.cache.
  destruct (Vectors.cache_lines _ _ lines) as [st|] eqn:Hlines; simpl; [|done].
  intros Hfin. exists st. split; [done|].
  assert (Vectors.parsing_ok st) as Hok
    by by apply (cache_lines_ok b Vectors.parsing_start lines).
  split; [done|]. revert Hfin. unfold Vectors.finish, view.
  destruct (Vectors.p_dim st) as [d|]; simpl; [|done].
  case_bool_decide; simpl; [|done]. by intros [= <-].
Qed.

Lemma cache_row_length unk b lines t i :
  Vectors.cache unk None b lines = Ok t →
  i < length (Vectors.itos t) →
  1 < Vectors.dim t
  ∧ shape (Vectors.vectors t) = [length (Vectors.itos t); Vectors.dim t]
  ∧ ∃ row, Tensor_getitem (Vectors.vectors t) i = Ok row
           ∧ shape row = [Vectors.dim t]
           ∧ length (data row) = Vectors.dim t.
Proof.
  intros Hload Hi.
  destruct (cache_finish _ _ _ _ Hload) as (st & _ & Hok & Hdim & Hitos & Hdata).
  destruct (cache_shape _ _ _ _ Hload) as (Hshape & _ & _).
  unfold Vectors.parsing_ok in Hok. rewrite Hdim in Hok. destruct Hok as [Hd Hlen].
  split; [done|]. split; [done|].
  unfold Tensor_getitem. rewrite Hshape, bool_decide_eq_true_2 by done.
  eexists. split; [done|]. split; [done|]. simpl.
  rewrite length_take, length_drop, Hdata, Hlen, <-Hitos. nia.
Qed.

(** X7. A table parsed from a file has one row for each of its tokens
    and [dim] numbers in every row, and if it lists a token at all its
    dimension is above [1]. *)
Theorem Vectors_cache_rows unk b lines t :
  Vectors.cache unk None b lines = Ok t →
  shape (Vectors.vectors t) = [length (Vectors.itos t); Vectors.dim t]
  ∧ ∀ i, i < length (Vectors.itos t) →
      1 < Vectors.dim t
      ∧ ∃ row, Tensor_getitem (Vectors.vectors t) i = Ok row
               ∧ shape row = [Vectors.dim t]
               ∧ length (data row) = Vectors.dim t.
Proof.
  intros Hload. split; [by apply cache_shape in Hload as (? & _)|].
  intros i Hi.
  destruct (cache_row_length _ _ _ _ _ Hload Hi) as (Hd & _ & Hrow). done.
Qed.

(** X8. A file in which no line has more than one numeric field (an
    empty file, or headers only) establishes no dimension, and the
    load ends in the [TypeError] of [view(-1, None)]. *)
Theorem Vectors_cache_no_dimension unk b lines :
  Forall (λ line, length (Vectors.entries_of line) = 1) lines →
  Vectors.cache unk None b lines = Raise TypeError.
Proof.
  intros Hall. destruct b; [apply cache_bytes|]. unfold Vectors.cache.
  assert (Vectors.cache_lines false Vectors.parsing_start lines
          = Ok Vectors.parsing_start) as ->; [|done].
  generalize Vectors.parsing_start.
  induction Hall as [|line lines Hline _ IH]; intros st;
    cbn [Vectors.cache_lines]; [done|].
  rewrite cache_line_skip by done. apply IH.
Qed.

Lemma cache_lines_kept st lines st' :
  Vectors.cache_lines false st lines = Ok st' →
  ∃ rows,
    Vectors.p_itos st' = Vectors.p_itos st ++ (Vectors.word_of <$> kept lines)
    ∧ Forall2 (λ line row, Vectors.floats (Vectors.entries_of line) = Ok row)
        (kept lines) rows
    ∧ Vectors.p_vectors st' = Vectors.p_vectors st ++ concat rows
    ∧ Forall (λ line, Some (length (Vectors.entries_of line)) = Vectors.p_dim st')
        (kept lines).
Proof.
  revert st. induction lines as [|line lines IH]; intros st; simpl.
  { intros [= <-]. exists []. simpl. by rewrite !app_nil_r. }
  destruct (Vectors.cache_line false st line) as [st1|] eqn:Hline; simpl; [|done].
  intros Hrest. destruct (IH _ Hrest) as (rows & Hitos & Hrows & Hvec & Hdim).
  unfold kept. rewrite filter_cons. fold (kept lines).
  revert Hline. rewrite cache_line_text, check_entries_cases.
  case_bool_decide as Hone; simpl.
  { intros [= <-]. rewrite decide_False by (intros Hne; by apply Hne).
    by exists rows. }
  rewrite decide_True by done.
  assert (∀ d, Vectors.floats (Vectors.entries_of line) ≫=
               (λ xs, Ok (Vectors.mkParsing
                            (Vectors.p_itos st ++ [Vectors.word_of line])
                            (Vectors.p_vectors st ++ xs) d)) = Ok st1 →
               Vectors.p_dim st1 = d ∧
               ∃ xs, Vectors.floats (Vectors.entries_of line) = Ok xs
                     ∧ Vectors.p_itos st1
                       = Vectors.p_itos st ++ [Vectors.word_of line]
                     ∧ Vectors.p_vectors st1 = Vectors.p_vectors st ++ xs)
    as Hkeep.
  { intros d. destruct (Vectors.floats _) as [xs|]; simpl; [|done].
    intros [= <-]. split; [done|]. by exists xs. }
  assert (∀ d, Vectors.p_dim st1 = Some d →
               Vectors.p_dim st' = Some d) as Hfix.
  { intros d Hd. rewrite (cache_lines_dim _ _ _ _ Hrest), Hd. done. }
  intros Hst1.
  assert (Vectors.p_dim st1 = Some (length (Vectors.entries_of line))
          ∧ ∃ xs, Vectors.floats (Vectors.entries_of line) = Ok xs
                  ∧ Vectors.p_itos st1
                    = Vectors.p_itos st ++ [Vectors.word_of line]
                  ∧ Vectors.p_vectors st1 = Vectors.p_vectors st ++ xs)
    as (Hd1 & xs & Hxs & Hitos1 & Hvec1).
  { destruct (Vectors.p_dim st) as [d|]; case_bool_decide; simpl in Hst1;
      try done; subst; by apply Hkeep. }
  exists (xs :: rows). split_and!.
  - rewrite Hitos, Hitos1, <-app_assoc. done.
  - by constructor.
  - rewrite Hvec, Hvec1, <-app_assoc. done.
  - constructor; [|done]. by rewrite (Hfix _ Hd1).
Qed.

(** X9. A table parsed from a text file lists the first fields of the
    lines that have another number of numeric fields than one, in the
    order and as often as the file has them; each of these lines has
    [dim] numeric fields, and the stored numbers are theirs, line after
    line. *)
Theorem Vectors_cache_tokens unk lines t :
  Vectors.cache unk None false lines = Ok t →
  Vectors.itos t = Vectors.word_of <$> kept lines
  ∧ Forall (λ line, length (Vectors.entries_of line) = Vectors.dim t)
      (kept lines)
  ∧ ∃ rows,
      Forall2 (λ line row, Vectors.floats (Vectors.entries_of line) = Ok row)
        (kept lines) rows
      ∧ data (Vectors.vectors t) = concat rows.
Proof.
  intros Hload.
  destruct (cache_finish _ _ _ _ Hload) as (st & Hlines & _ & Hdim & Hitos & Hdata).
  destruct (cache_lines_kept _ _ _ Hlines) as (rows & Hi & Hrows & Hv & Hd).
  simpl in Hi, Hv. split_and!.
  - by rewrite Hitos.
  - eapply Forall_impl; [exact Hd|]. intros line. rewrite Hdim. by intros [= ->].
  - exists rows. split; [done|]. by rewrite Hdata.
Qed.

(** X10. The index of a parsed table holds exactly the tokens listed,
    and for a token that the file repeats it holds the place of the
    last occurrence: lookups never reach the earlier rows. *)
Theorem Vectors_cache_last_row unk b lines t w :
  Vectors.cache unk None b lines = Ok t →
  (w ∈ Vectors.itos t ↔ is_Some (Vectors.stoi t !! w))
  ∧ ∀ i, Vectors.stoi t !! w = Some i →
      Vectors.itos t !! i = Some w
      ∧ ∀ j, Vectors.itos t !! j = Some w → j ≤ i.
Proof.
  intros (_ & Hstoi & _)%cache_shape. rewrite Hstoi. split.
  - split; [apply dict_enumerate_elem|apply dict_enumerate_dom].
  - intros i Hi. split; [by apply dict_enumerate_lookup_Some|].
    intros j. by apply dict_enumerate_last.
Qed.

Lemma floats_bad good x rest :
  Forall (λ y, is_Some (float y)) good → float x = None →
  Vectors.floats (good ++ x :: rest) = Raise (ValueError x).
Proof.
  intros Hgood Hx. induction Hgood as [|y good [v Hv] _ IH]; simpl.
  - by rewrite Hx.
  - rewrite Hv, IH. done.
Qed.

(** X11. In a file read as text, a line of the right width with a
    field that [float] does not read stops the whole load with the
    [ValueError] of the first such field; the lines after it are not
    looked at. *)
Theorem Vectors_cache_bad_number unk pre line post st good x rest :
  Vectors.cache_lines false Vectors.parsing_start pre = Ok st →
  1 < length (Vectors.entries_of line) →
  (∀ d, Vectors.p_dim st = Some d → length (Vectors.entries_of line) = d) →
  Vectors.entries_of line = good ++ x :: rest →
  Forall (λ y, is_Some (float y)) good → float x = None →
  Vectors.cache unk None false (pre ++ line :: post) = Raise (ValueError x).
Proof.
  intros Hpre Hwide Hdim Hentries Hgood Hx. unfold Vectors.cache.
  rewrite cache_lines_app, Hpre. cbn [mbind result_bind Vectors.cache_lines].
  rewrite cache_line_text, check_entries_cases.
  rewrite bool_decide_eq_false_2 by lia.
  assert (∀ d w, Vectors.floats (Vectors.entries_of line) ≫=
            (λ xs, Ok (Vectors.mkParsing (Vectors.p_itos st ++ [w])
                         (Vectors.p_vectors st ++ xs) d))
          = Raise (ValueError x)) as Hraise.
  { intros d w. by rewrite Hentries, (floats_bad _ _ _ Hgood Hx). }
  destruct (Vectors.p_dim st) as [d|] eqn:Hd.
  - rewrite bool_decide_eq_true_2 by by apply Hdim.
    cbn [mbind result_bind]. by rewrite Hraise.
  - rewrite bool_decide_eq_true_2 by done.
    cbn [mbind result_bind]. by rewrite Hraise.
Qed.
End parse_facts.


(** ** reporthook *)

Lemma report_progress bsize h calls :
  let h' := report bsize h calls in
  (Tqdm.n (hook_bar h') = Tqdm.n (hook_bar h) + (last_b h' - last_b h) * bsize)%Z
  ∧ last_b h' = default (last_b h) (last calls.*1)
  ∧ Tqdm.total (hook_bar h')
    = from_option Some (Tqdm.total (hook_bar h)) (last (omap snd calls)).
Proof.
  revert h. induction calls as [|[b tsize] calls IH]; intros h.
  { simpl. split; [lia|done]. }
  change (report bsize h ((b, tsize) :: calls))
    with (report bsize (inner h b bsize tsize) calls).
  destruct (IH (inner h b bsize tsize)) as (Hn & Hb & Ht). cbv zeta.
  split_and!.
  - rewrite Hn. unfold inner. destruct tsize; simpl; lia.
  - rewrite Hb. cbn [fmap list_fmap fst]. rewrite last_cons.
    destruct (last calls.*1); [done|]. unfold inner. by destruct tsize.
  - rewrite Ht. unfold inner, Tqdm.update.
    destruct tsize as [ts|]; cbn [hook_bar Tqdm.total]; [|done].
    change (omap snd ((b, Some ts) :: calls)) with (ts :: omap snd calls).
    rewrite last_cons. by destruct (last (omap snd calls)).
Qed.

(** X15. Whatever blocks the download reports, with one block size,
    the hook has advanced the bar by the last block count times the
    block size, and the bar's total is the last total reported (its
    own when none was). *)
Theorem reporthook_progress t bsize calls :
  let h := report bsize (reporthook t) calls in
  (Tqdm.n (hook_bar h) = Tqdm.n t + default 0 (last calls.*1) * bsize)%Z
  ∧ Tqdm.total (hook_bar h)
    = from_option Some (Tqdm.total t) (last (omap snd calls)).
Proof.
  destruct (report_progress bsize (reporthook t) calls) as (Hn & Hb & Ht).
  simpl in *. split; [|done]. rewrite Hn, Hb. lia.
Qed.

(** ** The cache file and GloVe *)

Section files_facts.
Context `{Torch}.
Variable path_join : string → string → string.

Lemma table_of_artefact (t : Vectors.t) :
  Vectors.mk (Vectors.itos t) (Vectors.stoi t) (Vectors.vectors t)
    (Vectors.dim t) (Vectors.unk_init t) = t.
Proof. by destruct t. Qed.

(** A construction that returns leaves the table in the [.pt] file. *)
Lemma Vectors_init_saved fs name cache unk t fs' :
  Vectors_init path_join fs name cache unk = (Ok t, fs') →
  Vectors.unk_init t = unk
  ∧ pt_files fs' !! path_pt path_join cache name = Some (Ok (artefact_of t)).
Proof.
  unfold Vectors_init.
  destruct (pt_files fs !! path_pt path_join cache name)
    as [[[[[i s] v] d]|e]|] eqn:Hfile.
  - cbn [mbind result_bind Vectors.cache]. intros [= <- <-]. by rewrite Hfile.
  - done.
  - destruct (text_file fs) as [[b lines]|e]; [|done].
    destruct (Vectors.cache unk None b lines) as [t'|] eqn:Hload; [|done].
    destruct (save_error fs _); [done|]. intros [= <- <-]. cbn [pt_files].
    rewrite lookup_insert_eq.
    by destruct (cache_shape _ _ _ _ Hload) as (_ & _ & <-).
Qed.

(** With the table in the [.pt] file, a construction returns it and
    touches nothing, whatever the other files are like. *)
Lemma Vectors_init_hit fs name cache (t : Vectors.t) :
  pt_files fs !! path_pt path_join cache name = Some (Ok (artefact_of t)) →
  Vectors_init path_join fs name cache (Vectors.unk_init t) = (Ok t, fs).
Proof.
  intros Hfile. unfold Vectors_init. rewrite Hfile.
  cbn [mbind result_bind artefact_of Vectors.cache].
  by rewrite table_of_artefact.
Qed.



(** X14. [GloVe] looks its name up before it loads anything: a name
    outside [GloVe.url] is a [KeyError] and leaves the files alone.
    For a name it knows, running the parent constructor twice comes to
    what running it once on the formatted file name comes to. *)
Theorem GloVe_init_once fs name dim cache unk :
  (GloVe_url !! name = None →
   GloVe_init path_join fs name dim cache unk = (Raise (KeyError name), fs))
  ∧ (is_Some (GloVe_url !! name) →
     GloVe_init path_join fs name dim cache unk
     = Vectors_init path_join fs (GloVe_name name dim) cache unk).
Proof.
  unfold GloVe_init. split.
  - by intros ->.
  - intros [url ->].
    destruct (Vectors_init path_join fs (GloVe_name name dim) cache unk)
      as [[t|e] fs'] eqn:Hinit; simpl; [|done].
    destruct (Vectors_init_saved _ _ _ _ _ _ Hinit) as [<- Hfile].
    by apply Vectors_init_hit.
Qed.
End files_facts.


(** ** The module-level search: tokens, first place and errors *)

Section search_more.
Context `{Torch}.
Variable glove : Vectors.t.

Lemma mapM_word_dist_fst vec l all :
  mapM (word_dist glove vec) l = Ok all → all.*1 = l.
Proof.
  revert all. induction l as [|w l IH]; intros all; cbn [mapM].
  { by intros [= <-]. }
  change (word_dist glove vec w)
    with (get_word glove w ≫= λ row, torch_dist vec row ≫= λ d, Ok (w, d)).
  destruct (get_word glove w) as [row|]; cbn [mbind result_bind]; [|done].
  destruct (torch_dist vec row) as [d|]; cbn [mbind result_bind]; [|done].
  destruct (mapM _ l) as [all'|]; cbn [mbind result_bind mret result_ret]; [|done].
  intros [= <-]. cbn [fmap list_fmap fst]. f_equal. by apply IH.
Qed.

Lemma slice_to_sublist {A} (l : list A) n : slice_to l n `sublist_of` l.
Proof. unfold slice_to. destruct (0 <=? n)%Z; apply sublist_take. Qed.

(** X16. Whatever [n] is, [closest] invents no token and repeats none
    more often than the table lists it; for [n >= 0] it returns
    [min(n, len(table))] pairs, and with [n] at least the size of the
    table it returns every token of the table. *)
Theorem closest_tokens vec n res :
  closest glove vec n = Ok res →
  res.*1 ⊆+ Vectors.itos glove
  ∧ ((0 ≤ n)%Z → length res = Z.to_nat n `min` length (Vectors.itos glove))
  ∧ ((Z.of_nat (length (Vectors.itos glove)) ≤ n)%Z →
     res.*1 ≡ₚ Vectors.itos glove).
Proof.
  unfold closest.
  destruct (mapM _ _) as [all|] eqn:Hall; cbn [mbind result_bind]; [|done].
  intros [= <-]. apply mapM_word_dist_fst in Hall.
  assert ((sorted dist_lt snd false all).*1 ≡ₚ Vectors.itos glove) as Hperm.
  { by rewrite sorted_perm, Hall. }
  split_and!.
  - rewrite <-Hperm. apply sublist_submseteq, fmap_sublist, slice_to_sublist.
  - intros Hn. unfold slice_to. rewrite (proj2 (Z.leb_le 0 n) Hn).
    by rewrite length_take, sorted_length, <-Hall, length_fmap.
  - intros Hn. rewrite <-Hperm. unfold slice_to.
    rewrite (proj2 (Z.leb_le 0 n)) by lia.
    rewrite <-Hall, length_fmap in Hn.
    rewrite take_ge; [done|]. rewrite sorted_length. lia.
Qed.

(** X17. In a table in which each listed token indexes its own row,
    for a query that can be broadcast against a row and distances that
    [<] orders: when one row is strictly nearer to the query than every
    other row, its token comes first in the result of [closest] for
    every [n >= 1]. *)
Theorem closest_first vec n j w row :
  Vectors.table_ok glove → (1 ≤ n)%Z →
  broadcastable (shape vec) [Vectors.dim glove] = true →
  (∀ all, mapM (word_dist glove vec) (Vectors.itos glove) = Ok all →
          ordered all.*2) →
  Vectors.itos glove !! j = Some w →
  Tensor_getitem (Vectors.vectors glove) j = Ok row →
  (∀ i row', i ≠ j → i < length (Vectors.itos glove) →
     Tensor_getitem (Vectors.vectors glove) i = Ok row' →
     dist_lt (dist vec row) (dist vec row') = true
     ∧ dist_lt (dist vec row') (dist vec row) = false) →
  ∃ rest, closest glove vec n = Ok ((w, dist vec row) :: rest).
Proof.
  intros Hok Hn Hvec Hord Hj Hrow Hnear.
  destruct (all_dists_Ok glove vec Hok Hvec) as (all & Hall & Hlen & Hrows).
  set (srt := sorted dist_lt (snd ∘ snd) false (enumerate all)).
  assert (∀ a, a ∈ srt → all !! a.1 = Some a.2) as Helem.
  { intros [i x]. unfold srt. rewrite sorted_perm. apply elem_of_enumerate. }
  assert (StronglySorted
            (ranked dist_lt (snd ∘ snd) false (λ a b, a.1 < b.1)) srt) as Hsrt.
  { apply all_dists_sorted. by apply Hord. }
  destruct (lookup_lt_is_Some_2 all j) as [x Hx].
  { rewrite Hlen. by eapply lookup_lt_Some. }
  assert (x = (w, dist vec row)) as ->.
  { destruct (Hrows j x Hx) as (Hw & row' & Hrow' & Hd).
    destruct x as [w' d]. simpl in *. f_equal; congruence. }
  assert ((j, (w, dist vec row)) ∈ srt) as Hin.
  { unfold srt. rewrite sorted_perm. by apply elem_of_enumerate. }
  assert (closest glove vec n = Ok (take (Z.to_nat n) srt.*2)) as Hres.
  { unfold closest. rewrite Hall. simpl. f_equal. unfold slice_to.
    rewrite (proj2 (Z.leb_le 0 n)) by lia. f_equal.
    unfold srt. by rewrite sorted_fmap, enumerate_snd. }
  destruct srt as [|a srt'] eqn:Hsrt'; [by apply elem_of_nil in Hin|].
  assert (a = (j, (w, dist vec row))) as ->.
  { assert (all !! a.1 = Some a.2) as Ha by (apply Helem; by left).
    destruct (decide (a.1 = j)) as [Heq|Hne].
    { destruct a as [i x]. simpl in *. subst i. congruence. }
    exfalso. apply elem_of_cons in Hin as [?|Hin]; [by subst a|].
    apply StronglySorted_cons in Hsrt as [Hfirst _].
    rewrite Forall_forall in Hfirst. specialize (Hfirst _ Hin).
    destruct (Hrows _ _ Ha) as (_ & row' & Hrow' & Hd).
    destruct (Hnear a.1 row' Hne) as [Hlt Hnlt]; [|done|].
    { rewrite <-Hlen. by eapply lookup_lt_Some. }
    destruct Hfirst as [Hbef|[Hbef _]]; unfold before in Hbef; simpl in Hbef;
      rewrite Hd in Hbef; congruence. }
  exists (take (Z.to_nat n - 1) srt'.*2). rewrite Hres.
  destruct (Z.to_nat n) as [|k] eqn:Hk; [lia|]. simpl.
  by rewrite Nat.sub_0_r.
Qed.

Lemma mapM_result_raise {A B} (f : A → result B) l1 x l2 e :
  Forall (λ y, ∃ z, f y = Ok z) l1 → f x = Raise e →
  mapM f (l1 ++ x :: l2) = Raise e.
Proof.
  intros Hl1 Hx. induction Hl1 as [|y l1 [z Hz] _ IH]; cbn [app mapM].
  - by rewrite Hx.
  - rewrite Hz, IH. done.
Qed.

Lemma intersection_loop_raise n done pre w post acc :
  Forall (λ w', ∃ near, neighbours glove n w' = Ok near) pre →
  Vectors.stoi glove !! lower w = None →
  intersection_loop glove n (done ++ pre ++ w :: post) acc
    (seq (length done) (length (pre ++ w :: post)))
  = Raise (KeyError (lower w)).
Proof.
  intros Hpre Hw. revert done acc.
  induction Hpre as [|w' pre [near Hnear] _ IH]; intros done acc.
  - cbn [app length seq intersection_loop]. unfold list_getitem.
    rewrite lookup_app_r, Nat.sub_diag by lia.
    cbn [lookup list_lookup mbind result_bind].
    unfold neighbours. by rewrite (get_word_absent glove _ Hw).
  - cbn [app length seq intersection_loop]. unfold list_getitem.
    rewrite lookup_app_r, Nat.sub_diag by lia.
    cbn [lookup list_lookup mbind result_bind]. rewrite Hnear.
    cbn [mbind result_bind].
    replace (S (length done)) with (length (done ++ [w']))
      by (rewrite length_app; simpl; lia).
    rewrite (cons_middle w' done), app_assoc. apply IH.
Qed.

(** X18. The script has no fallback for a word outside the table:
    the first target word whose lower-case form is no key of the table
    ends both the intersection and the aggregate in its [KeyError]
    (the words before it having their neighbours and vectors), and
    with no target word at all both end in an [IndexError]. *)
Theorem script_unknown_word n :
  (∀ pre w post,
      Forall (λ w', ∃ near, neighbours glove n w' = Ok near) pre →
      Vectors.stoi glove !! lower w = None →
      intersection glove n (pre ++ w :: post) = Raise (KeyError (lower w)))
  ∧ (∀ words pre u post,
      Forall (λ u', ∃ v, get_word glove (lower u') = Ok v) pre →
      Vectors.stoi glove !! lower u = None →
      aggregate glove words (pre ++ u :: post) = Raise (KeyError (lower u)))
  ∧ intersection glove n [] = Raise IndexError
  ∧ (∀ words, aggregate glove words [] = Raise IndexError).
Proof.
  split_and!; [| |done|done].
  - intros pre w post Hpre Hw. unfold intersection, list_getitem.
    destruct Hpre as [|w0 pre [near Hnear] Hpre].
    + cbn [app lookup list_lookup mbind result_bind]. unfold neighbours.
      by rewrite (get_word_absent glove _ Hw).
    + cbn [app lookup list_lookup mbind result_bind]. rewrite Hnear.
      cbn [mbind result_bind].
      pose proof (intersection_loop_raise n [] (w0 :: pre) w post
                    (made_by 0 near)) as Hloop.
      cbn [app length] in Hloop. cbn [app length]. rewrite Hloop; [done| |done].
      constructor; [by exists near|done].
  - intros words pre u post Hpre Hu. unfold aggregate, list_getitem.
    set (count := λ u0 : string, Z.of_nat (list_count u0 words)).
    assert (get_word glove (lower u) = Raise (KeyError (lower u))) as Hraise
      by by apply get_word_absent.
    destruct Hpre as [|u0 pre [v0 Hv0] Hpre].
    + cbn [app lookup list_lookup mbind result_bind]. by rewrite Hraise.
    + cbn [app occurence fmap list_fmap lookup list_lookup mbind result_bind
           length].
      rewrite Hv0. cbn [mbind result_bind].
      replace (S (length (pre ++ u :: post)) - 1)
        with (length (pre ++ u :: post)) by lia.
      pose proof (aggregate_loop_terms glove [u0] [count u0]
                    (pre ++ u :: post) (count <$> (pre ++ u :: post))
                    (mul v0 (count u0))) as Hloop.
      unfold count in *. cbn [app length] in Hloop. cbn beta in Hloop.
      rewrite Hloop by (by rewrite ?length_fmap).
      rewrite zip_fmap_self, fmap_app, fmap_cons.
      rewrite (mapM_result_raise _ _ _ _ (KeyError (lower u))); [done| |].
      * apply Forall_fmap. eapply Forall_impl; [exact Hpre|].
        intros u' [v Hv]. unfold weighted_term. simpl. rewrite Hv. by eexists.
      * unfold weighted_term. simpl. by rewrite Hraise.
Qed.
End search_more.


(** ** Vocab: attached vectors *)

Lemma bind_row {A B} (f : A → list B) (l : list A) d i x :
  Forall (λ y, length (f y) = d) l → l !! i = Some x →
  take d (drop (i * d) (l ≫= f)) = f x.
Proof.
  intros Hl. revert i. induction Hl as [|y l Hy Hl IH]; intros i; [done|].
  rewrite bind_cons. destruct i as [|i]; intros Hi; simpl in Hi.
  - injection Hi as ->. by rewrite Nat.mul_0_l, drop_0, take_app_length'.
  - rewrite drop_app_ge by lia.
    replace (S i * d - length (f y)) with (i * d) by lia. by apply IH.
Qed.

Section attach_facts.
Context `{Torch}.

Lemma broadcast_vector d (src : Tensor scalar) :
  is_vector d src → broadcast_to d src = Ok (data src).
Proof.
  intros [Hshape Hlen]. unfold broadcast_to. rewrite Hshape.
  destruct d as [|[|d]]; cbn [strip_ones].
  - by rewrite bool_decide_eq_true_2.
  - by destruct (data src) as [|x [|y l]].
  - by rewrite bool_decide_eq_true_2.
Qed.

(** Writing at the end of what was written so far. *)
Lemma set_slice_next (t : Tensor scalar) rows cols i a len src W D0 :
  shape t = [rows; cols] → i < rows → a + len ≤ cols →
  is_vector len src →
  length W = i * cols + a → data t = W ++ drop (length W) D0 →
  ∃ t', Tensor_set_slice t i a (a + len) src = Ok t'
        ∧ shape t' = [rows; cols]
        ∧ data t' = (W ++ data src) ++ drop (length (W ++ data src)) D0.
Proof.
  intros Hshape Hi Hcols Hsrc HW Hdata. unfold Tensor_set_slice.
  rewrite Hshape, bool_decide_eq_true_2 by done.
  replace (a `min` cols) with a by lia.
  replace (((a + len) `min` cols) `max` a) with (a + len) by lia.
  replace (a + len - a) with len by lia.
  rewrite (broadcast_vector _ _ Hsrc). simpl.
  eexists. split; [done|]. split; [done|]. simpl.
  destruct Hsrc as [_ Hlen].
  rewrite Hdata, <-HW, take_app_length, <-app_assoc. f_equal. f_equal.
  rewrite Nat.add_assoc, <-HW, drop_app_ge, drop_drop, length_app by lia.
  f_equal. lia.
Qed.

Lemma Tensor_getitem_2d (t : Tensor scalar) rows cols i :
  shape t = [rows; cols] → i < rows →
  Tensor_getitem t i
  = Ok (mkTensor [cols] (take cols (drop (i * cols) (data t)))).
Proof.
  intros Hshape Hi. unfold Tensor_getitem.
  rewrite Hshape, bool_decide_eq_true_2 by done.
  unfold numel. cbn [foldr]. by rewrite Nat.mul_1_r.
Qed.

Lemma Tensor_new_drop rows cols :
  drop (rows * cols) (data (Tensor_new rows cols)) = [].
Proof.
  apply drop_ge. unfold Tensor_new. simpl. by rewrite length_fmap, length_seq.
Qed.


(** X20. [load_vectors] checks its sources in order before it does
    anything else: the first source that is an unknown alias, or
    neither an alias nor a [Vectors] object, ends the call in a
    [ValueError]; of the aliases only ["glove.840B.300d"] is known. *)
Theorem load_vectors_rejects aliases sum (self : Vocab.t) pre bad post text :
  Forall (λ a, ∃ v, resolve aliases a = Ok v) pre →
  (bad = Other text ∨ (bad = Alias text ∧ aliases !! text = None)) →
  load_vectors aliases sum self (Many (pre ++ bad :: post))
  = Raise (ValueError text)
  ∧ (pre = [] →
     load_vectors aliases sum self (One bad) = Raise (ValueError text))
  ∧ ∀ glove_840B, text ≠ "glove.840B.300d" →
      pretrained_aliases glove_840B !! text = None.
Proof.
  intros Hpre Hbad.
  assert (resolve aliases bad = Raise (ValueError text)) as Hraise.
  { destruct Hbad as [->|[-> Hnone]]; simpl; [done|]. by rewrite Hnone. }
  split_and!.
  - unfold load_vectors. cbn [as_list].
    by rewrite (mapM_result_raise _ _ _ _ _ Hpre Hraise).
  - intros _. unfold load_vectors. cbn [as_list mapM]. by rewrite Hraise.
  - intros glove_840B Hne. unfold pretrained_aliases.
    by rewrite lookup_singleton_ne.
Qed.

Lemma fresh_row_take rows dim i :
  i < rows →
  take dim (drop (i * dim) (data (Tensor_new rows dim)))
  = data (fresh_row dim i).
Proof.
  intros Hi. unfold Tensor_new, fresh_row. simpl.
  rewrite <-fmap_drop, <-fmap_take, drop_seq, take_seq. f_equal. f_equal.
  simpl. nia.
Qed.

Lemma set_rows stoi vectors dim unk l i0 (t : Tensor scalar) rows W :
  let D0 := data (Tensor_new rows dim) in
  let row := λ it : nat * string,
    set_vectors_row stoi vectors dim unk it.1 it.2 in
  shape t = [rows; dim] → i0 + length l ≤ rows →
  length W = i0 * dim → data t = W ++ drop (length W) D0 →
  (∀ k token, l !! k = Some token →
     set_vectors_ok stoi vectors dim unk (i0 + k) token) →
  ∃ t', for_each (set_vectors_step stoi vectors unk) t
          (imap (λ k x, (i0 + k, x)) l) = Ok t'
        ∧ shape t' = [rows; dim]
        ∧ data t' = (W ++ (imap (λ k x, (i0 + k, x)) l ≫= row))
                    ++ drop (length W + length l * dim) D0.
Proof.
  intros D0 row. revert i0 t W.
  induction l as [|token l IH]; intros i0 t W Hshape Hrows HW Hdata Hok.
  { exists t. cbn [imap for_each mbind list_bind length].
    rewrite app_nil_r, Nat.mul_0_l, Nat.add_0_r. done. }
  cbn [imap for_each]. rewrite Nat.add_0_r.
  pose proof (Hok 0 token eq_refl) as Htok. rewrite Nat.add_0_r in Htok.
  assert (∃ src, set_vectors_step stoi vectors unk t (i0, token)
                 = Tensor_set_slice t i0 0 (0 + dim) src
                 ∧ is_vector dim src ∧ row (i0, token) = data src)
    as (src & Hstep & Hvec & Hrow).
  { unfold set_vectors_step, set_vectors_ok, row, set_vectors_row in *.
    cbn [fst snd]. unfold Tensor_setitem. rewrite Hshape.
    destruct (stoi !! token) as [k|].
    - destruct Htok as (src & Hsrc & Hvec). exists src. by rewrite Hsrc.
    - rewrite (Tensor_getitem_2d t rows dim) by (done || simpl in Hrows; lia).
      cbn [mbind result_bind].
      assert (take dim (drop (i0 * dim) (data t)) = data (fresh_row dim i0))
        as ->.
      { rewrite Hdata, <-HW, drop_app_length, HW.
        apply fresh_row_take. simpl in Hrows. lia. }
      by exists (unk (fresh_row dim i0)). }
  rewrite Hstep.
  destruct (set_slice_next t rows dim i0 0 dim src W D0)
    as (t1 & Hset & Hshape1 & Hdata1); [done|simpl in Hrows; lia|lia|done|lia|done|].
  rewrite Hset. cbn [mbind result_bind].
  destruct (IH (S i0) t1 (W ++ data src)) as (t' & Hloop & Hshape' & Hdata');
    [done|simpl in Hrows; lia| |done| |].
  { rewrite length_app, (proj2 Hvec), HW. lia. }
  { intros k token' Hk. replace (S i0 + k) with (i0 + S k) by lia.
    by apply Hok. }
  exists t'. split.
  - rewrite <-Hloop. f_equal. apply imap_ext. intros k x _. simpl.
    f_equal. lia.
  - split; [done|]. rewrite Hdata', bind_cons, Hrow, <-!app_assoc.
    rewrite length_app, (proj2 Hvec).
    replace (length W + dim + length l * dim)
      with (length W + length (token :: l) * dim) by (simpl; lia).
    do 3 f_equal. f_equal. apply imap_ext. intros k x _. simpl. f_equal. lia.
Qed.

Lemma set_vectors_row_length stoi vectors dim unk i token :
  set_vectors_ok stoi vectors dim unk i token →
  length (set_vectors_row stoi vectors dim unk i token) = dim.
Proof.
  unfold set_vectors_ok, set_vectors_row. destruct (stoi !! token).
  - by intros (src & -> & _ & Hlen).
  - by intros [_ Hlen].
Qed.

(** X21. When the vector of every token can be assigned to a row of
    [dim] numbers, [set_vectors] succeeds with one row per token: the
    vector that [vectors] holds at the token's index in [stoi], or for
    a token outside [stoi] what [unk_init] makes of the row as it was
    allocated, which under the default [zero_] is a row of zeros. *)
Theorem set_vectors_rows (self : Vocab.t) stoi vectors dim unk :
  (∀ i token, Vocab.itos self !! i = Some token →
     set_vectors_ok stoi vectors dim unk i token) →
  ∃ t, set_vectors self stoi vectors dim unk = Ok t
       ∧ shape t = [VocabMethods.__len__ self; dim]
       ∧ ∀ i token, Vocab.itos self !! i = Some token →
           Tensor_getitem t i
           = Ok (mkTensor [dim] (set_vectors_row stoi vectors dim unk i token))
           ∧ (stoi !! token = None → unk = zero_ →
              Tensor_getitem t i = Ok (mkTensor [dim] (replicate dim zero))).
Proof.
  intros Hok. unfold set_vectors.
  set (rows := length (Vocab.itos self)).
  destruct (set_rows stoi vectors dim unk (Vocab.itos self) 0
              (Tensor_new rows dim) rows [])
    as (t & Hloop & Hshape & Hdata); [done|done|done|done|done|].
  exists t. split; [exact Hloop|]. split; [done|].
  assert (∀ i token, Vocab.itos self !! i = Some token →
            Tensor_getitem t i
            = Ok (mkTensor [dim] (set_vectors_row stoi vectors dim unk i token)))
    as Hrow.
  { intros i token Hi.
    rewrite (Tensor_getitem_2d t rows dim) by (done || by eapply lookup_lt_Some).
    rewrite Hdata. cbn [app length]. rewrite Nat.add_0_l. fold rows.
    rewrite Tensor_new_drop, app_nil_r. f_equal. f_equal.
    apply (bind_row
             (λ it : nat * string,
                set_vectors_row stoi vectors dim unk it.1 it.2) _ dim i
             (i, token)).
    - apply Forall_forall.
      intros [k x] (j & y & [= -> ->] & Hj)%elem_of_lookup_imap.
      by apply set_vectors_row_length, Hok.
    - by rewrite list_lookup_imap, Hi. }
  intros i token Hi. split; [by apply Hrow|].
  intros Hnone ->. rewrite (Hrow i token Hi). f_equal. f_equal.
  unfold set_vectors_row. rewrite Hnone. unfold zero_, fresh_row. simpl.
  by rewrite fmap_zero_replicate, length_fmap, length_seq.
Qed.
End attach_facts.

(** ** The example instance *)

#[local] Existing Instance Example.int_torch.

Lemma int_ordered (ds : list Z) : ordered (H := Example.int_torch) ds.
Proof.
  split; intros a b c _ _ _; simpl; rewrite !Z.ltb_lt; lia.
Qed.

Lemma int_mul_one (t : Tensor Z) : mul (Torch := Example.int_torch) t 1 = t.
Proof.
  destruct t as [sh d]. simpl. f_equal.
  induction d as [|x d IH]; [done|].
  cbn [fmap list_fmap]. f_equal; [lia|apply IH].
Qed.

Lemma example_table_ok : Vectors.table_ok Example.table.
Proof.
  intros [|[|[|i]]] w Hi; simpl in Hi; simplify_eq;
    (split; [reflexivity|eexists; split; reflexivity]).
Qed.

Lemma example_table_loaded :
  Vectors.cache (H := Example.int_torch) Example.zeros None false Example.lines
  = Ok Example.table.
Proof. reflexivity. Qed.

(** The example of the specification: counts [a:5, b:5, c:1] with the
    special ['<pad>'] and [min_freq = 2]. *)
Example Vocab_init_example :
  Vocab.itos (Vocab.init Example.counter None 2 ["<pad>"]).1
  = ["<unk>"; "<pad>"; "a"; "b"].
Proof. by vm_compute. Qed.

(** C3 as the claim states it, for every table and every query,
    fails on a table that the loader builds from a file that repeats a
    token: [stoi] keeps the last row of ["a"], so the first row, at
    distance [0] from the query, is never measured, and the one token
    returned is not that of the nearest row.  It fails also for a query
    of another length than the rows, for which nothing is returned, and
    for a negative [n], which a slice counts from the end. *)
Theorem closest_repeated_token :
  Vectors.cache (H := Example.int_torch) Example.zeros None false
    Fixture.lines_dup = Ok Example.table_dup
  ∧ closest Example.table_dup (mkTensor [2] [0; 0]%Z) 1 = Ok [("b", 5%Z)]
  ∧ Tensor_getitem (Vectors.vectors Example.table_dup) 0
    = Ok (mkTensor [2] [0; 0]%Z)
  ∧ ¬ nearest_rows Example.table_dup (mkTensor [2] [0; 0]%Z) 1 [("b", 5%Z)]
  ∧ ¬ Vectors.table_ok Example.table_dup
  ∧ closest Example.table (mkTensor [3] [0; 0; 0]%Z) 1 = Raise TorchError
  ∧ closest Example.table (mkTensor [2] [3; 4]%Z) (-1)
    = Ok [("dog", 0%Z); ("cat", 5%Z)].
Proof.
  split_and!; [reflexivity|reflexivity|reflexivity| | |reflexivity..].
  - intros (ds & idxs & _ & Hds & Hres & _ & _ & Hout).
    apply Forall2_cons_inv_r in Hres as (i & idxs' & [Hi Hdi] & Hnil & ->).
    apply Forall2_nil_inv_r in Hnil as ->. cbn [fst snd] in Hi, Hdi.
    assert (i = 1) as ->.
    { unfold Example.table_dup in Hi. cbn [Vectors.itos] in Hi.
      destruct i as [|[|[|i]]]; simpl in Hi; [discriminate|done|discriminate..]. }
    destruct (Hout 1 0) as (di & dk & Hdi' & Hdk & Hcloser).
    { by left. }
    { simpl. lia. }
    { by intros ?%list_elem_of_singleton. }
    assert (di = 5%Z) as -> by congruence.
    destruct (Hds 0 dk Hdk) as (row & Hrow & ->).
    assert (row = mkTensor [2] [0; 0]%Z) as -> by (by injection Hrow as <-).
    assert (dist (Torch := Example.int_torch) (mkTensor [2] [0; 0]%Z)
              (mkTensor [2] [0; 0]%Z) = 0%Z) as Hzero by reflexivity.
    rewrite Hzero in Hcloser. simpl in Hcloser.
    destruct Hcloser as [Hlt|[_ Hlt]]; [done|lia].
  - intros Hok. destruct (Hok 0 "a" eq_refl) as [Hstoi _].
    assert (Vectors.stoi Example.table_dup !! "a" = Some 2) as Hlast
      by reflexivity.
    congruence.
Qed.

(** C4 is what the intersection should be and is not.  [closest]
    returns (token, distance) tuples, and lines 348-350 intersect the
    sets of tuples, which are found in a set by the tensor they hold:
    "cat", "dog" and "puppy" are each among the ten nearest of both
    "dog" and "puppy", and the intersection comes out empty, as it does
    for the word "dog" alone. *)
Theorem intersection_drops_common_neighbours :
  let words := ["dog"; "puppy"] in
  intersection Example.table 10 words = Ok []
  ∧ neighbours Example.table 10 "dog"
    = Ok [("dog", 0%Z); ("cat", 5%Z); ("puppy", 5%Z)]
  ∧ neighbours Example.table 10 "puppy"
    = Ok [("puppy", 0%Z); ("dog", 5%Z); ("cat", 10%Z)]
  ∧ (∀ w, w ∈ words →
      ∃ near, neighbours Example.table 10 w = Ok near
              ∧ ["cat"; "dog"; "puppy"] ⊆ near.*1)
  ∧ intersection Example.table 10 ["dog"] = Ok [].
Proof.
  split_and!; try reflexivity.
  intros w [->|[->|?%elem_of_nil]%elem_of_cons]%elem_of_cons; [| |done].
  - exists [("dog", 0%Z); ("cat", 5%Z); ("puppy", 5%Z)].
    split; [reflexivity|]. cbn [fmap list_fmap fst].
    intros x. rewrite !elem_of_cons. tauto.
  - exists [("puppy", 0%Z); ("dog", 5%Z); ("cat", 10%Z)].
    split; [reflexivity|]. cbn [fmap list_fmap fst].
    intros x. rewrite !elem_of_cons. tauto.
Qed.

(** C2 is what the loader should do with every file and does not do
    with one that is not valid UTF-8.  Its lines are read as bytes
    (lines 237-242), line 248 splits them at the [str] separator [" "],
    and the first line ends the load in a [TypeError]: the one-field
    line is not passed over and no dimension is fixed, where the first
    line with more than one numeric field has two. *)
Theorem Vectors_cache_bytes :
  Vectors.cache (H := Example.int_torch) Example.zeros None true
    Fixture.lines_latin1 = Raise TypeError
  ∧ Vectors.cache_line (H := Example.int_torch) true Vectors.parsing_start
      "3 2" = Raise TypeError
  ∧ length (Vectors.entries_of (H := Example.int_torch) "3 2") = 1
  ∧ Vectors.first_wide (H := Example.int_torch) Fixture.lines_latin1 = Some 2
  ∧ Vectors.cache (H := Example.int_torch) Example.zeros None false
      ("3 2" :: Example.lines) = Ok Example.table
  ∧ ∀ (T : Torch) unk lines,
      Vectors.cache (H := T) unk None true lines = Raise TypeError.
Proof.
  split_and!; [reflexivity..|].
  intros T unk lines. apply cache_bytes.
Qed.

(** C9 is what the lookup of a token should give and what [get_word],
    the lookup of the script, does not give for a token outside the
    table: [glove[token]] and [vectorOf] hand out the zero vector for
    "bird", [get_word] raises [KeyError]; for a token of the table the
    two agree. *)
Theorem get_word_no_fallback :
  Vectors.stoi Example.table !! "bird" = None
  ∧ (Vectors.getitem Example.table "bird").1
    = Ok (mkTensor [1; 2] [0; 0]%Z)
  ∧ vectorOf Example.table "bird" = Ok (mkTensor [2] [0; 0]%Z)
  ∧ get_word Example.table "bird" = Raise (KeyError "bird")
  ∧ get_word Example.table "dog" = (Vectors.getitem Example.table "dog").1
  ∧ get_word Example.table "dog" = Ok (mkTensor [2] [3; 4]%Z).
Proof. split_and!; reflexivity. Qed.

(** C5 is what the aggregate should be and is not for a target word
    outside the table.  For the words "puppy" and "bird" the
    specification's [weightedAggregate] is the mean of the row of
    "puppy" and the zero vector that [vectorOf] hands out for "bird";
    lines 341-343 look the words up with [get_word] and end in its
    [KeyError], in whichever order [list(set(words))] lists them. *)
Theorem aggregate_unknown_token :
  let words := ["puppy"; "bird"] in
  lowered (token_counts words words) = [("puppy", 1%Z); ("bird", 1%Z)]
  ∧ weightedAggregate Example.table [("puppy", 1%Z); ("bird", 1%Z)]
    = Some (Ok (mkTensor [2] [3; 4]%Z))
  ∧ aggregate Example.table words ["puppy"; "bird"]
    = Raise (KeyError "bird")
  ∧ aggregate Example.table words ["bird"; "puppy"]
    = Raise (KeyError "bird").
Proof. split_and!; reflexivity. Qed.

(** ** The theorems at work on the example table *)

Lemma Vectors_cache_dimension_witness :
  (Vectors.cache (H := Example.int_torch) Example.zeros None false
     ("3 2" :: Example.lines) = Ok Example.table
   ∧ Vectors.first_wide ("3 2" :: Example.lines)
     = Some (Vectors.dim Example.table))
  ∧ (length (Vectors.entries_of "x 1") = 1
     ∧ Vectors.cache_lines false
         (Vectors.mkParsing (H := Example.int_torch) ["cat"] [0; 0]%Z (Some 2))
         ("x 1" :: ["dog 3 4"])
       = Vectors.cache_lines false
           (Vectors.mkParsing (H := Example.int_torch) ["cat"] [0; 0]%Z (Some 2))
           ["dog 3 4"])
  ∧ (Vectors.cache_lines false Vectors.parsing_start Example.lines
     = Ok (Vectors.mkParsing (H := Example.int_torch)
             ["cat"; "dog"; "puppy"] [0; 0; 3; 4; 6; 8]%Z (Some 2))
     ∧ length (Vectors.entries_of "y 1 2 3") ≠ 1
     ∧ length (Vectors.entries_of "y 1 2 3") ≠ 2
     ∧ Vectors.cache (H := Example.int_torch) Example.zeros None false
         (Example.lines ++ "y 1 2 3" :: ["z 1 1"])
       = Raise (RuntimeError "y" 3 (Some 2))).
Proof.
  destruct (Vectors_cache_dimension (H := Example.int_torch) Example.zeros)
    as (Hdim & Hskip & Habort).
  assert (Vectors.cache (H := Example.int_torch) Example.zeros None false
            ("3 2" :: Example.lines) = Ok Example.table) as Hload
    by reflexivity.
  assert (length (Vectors.entries_of (H := Example.int_torch) "x 1") = 1) as Hone
    by reflexivity.
  assert (Vectors.cache_lines (H := Example.int_torch) false
            Vectors.parsing_start Example.lines
          = Ok (Vectors.mkParsing (H := Example.int_torch)
                  ["cat"; "dog"; "puppy"] [0; 0; 3; 4; 6; 8]%Z (Some 2))) as Hpre
    by reflexivity.
  assert (length (Vectors.entries_of (H := Example.int_torch) "y 1 2 3") = 3)
    as Hlen by reflexivity.
  assert (length (Vectors.entries_of (H := Example.int_torch) "y 1 2 3") ≠ 1)
    as Hn1 by (rewrite Hlen; lia).
  assert (length (Vectors.entries_of (H := Example.int_torch) "y 1 2 3") ≠ 2)
    as Hn2 by (rewrite Hlen; lia).
  split; [split; [exact Hload|exact (Hdim _ _ Hload)]|].
  split; [split; [exact Hone|exact (Hskip _ "x 1" ["dog 3 4"] Hone)]|].
  split; [exact Hpre|]. split; [exact Hn1|]. split; [exact Hn2|].
  exact (Habort Example.lines "y 1 2 3" ["z 1 1"] _ 2 Hpre eq_refl Hn1 Hn2).
Defined.

Lemma Vectors_getitem_lookup_witness :
  (Vectors.stoi Example.table !! "dog" = Some 1
   ∧ (Vectors.getitem Example.table "dog").1
     = Tensor_getitem (Vectors.vectors Example.table) 1)
  ∧ (Vectors.stoi Example.table !! "bird" = None
     ∧ Vectors.unk_init Example.table = zero_
     ∧ (Vectors.getitem Example.table "bird").1
       = Ok (mkTensor [1; 2] (replicate 2 0%Z)))
  ∧ (Vectors.getitem Example.table "bird").2 = Example.table
  ∧ (Vectors.cache (H := Example.int_torch) Example.zeros None false
       Example.lines = Ok Example.table
     ∧ ∃ row, (Vectors.getitem Example.table "dog").1 = Ok row
              ∧ Tensor_getitem (Vectors.vectors Example.table) 1 = Ok row
              ∧ shape row = [2]).
Proof.
  assert (Vectors.stoi Example.table !! "dog" = Some 1) as Hdog
    by reflexivity.
  assert (Vectors.stoi Example.table !! "bird" = None) as Hbird
    by reflexivity.
  destruct (Vectors_getitem_lookup Example.table "dog") as (Hrow & _ & _ & Hloaded).
  destruct (Vectors_getitem_lookup Example.table "bird") as (_ & Hunk & Hsame & _).
  split; [split; [exact Hdog|exact (Hrow 1 Hdog)]|].
  split; [split; [exact Hbird|split; [reflexivity|]]|].
  { exact (proj2 (Hunk Hbird) eq_refl). }
  split; [exact Hsame|]. split; [exact example_table_loaded|].
  exact (Hloaded Example.zeros false Example.lines 1 example_table_loaded Hdog).
Defined.

Lemma closest_nearest_witness :
  Vectors.table_ok Example.table ∧ (0 ≤ 2)%Z
  ∧ broadcastable [2] [Vectors.dim Example.table] = true
  ∧ (∃ res, closest Example.table (mkTensor [2] [3; 4]%Z) 2 = Ok res
            ∧ nearest_rows Example.table (mkTensor [2] [3; 4]%Z) 2 res)
  ∧ broadcastable [3] [Vectors.dim Example.table] = false
  ∧ closest Example.table (mkTensor [3] [0; 0; 0]%Z) 2 = Raise TorchError.
Proof.
  assert (broadcastable [2] [Vectors.dim Example.table] = true) as Hfit
    by reflexivity.
  assert (broadcastable [3] [Vectors.dim Example.table] = false) as Hmis
    by reflexivity.
  split; [exact example_table_ok|]. split; [lia|]. split; [exact Hfit|].
  split.
  - apply (proj1 (closest_nearest Example.table (mkTensor [2] [3; 4]%Z) 2
                    example_table_ok)); [exact Hfit|lia|].
    intros all _. apply int_ordered.
  - split; [exact Hmis|].
    apply (proj2 (closest_nearest Example.table (mkTensor [3] [0; 0; 0]%Z) 2
                    example_table_ok)); [exact Hmis|].
    discriminate.
Defined.

Lemma aggregate_weighted_mean_witness :
  let words := ["dog"; "cat"; "dog"; "puppy"] in
  let unique_words := ["cat"; "dog"; "puppy"] in
  is_listing words unique_words
  ∧ lowered (token_counts words unique_words)
    = [("cat", 1%Z); ("dog", 2%Z); ("puppy", 1%Z)]
  ∧ total (lowered (token_counts words unique_words)) = 4%Z
  ∧ aggregate Example.table words unique_words = Ok (mkTensor [2] [3; 4]%Z)
  ∧ weightedAggregate Example.table
      (lowered (token_counts words unique_words))
    = Some (aggregate Example.table words unique_words)
  ∧ aggregate Example.table ["puppy"; "cat"] ["cat"; "puppy"]
    = Ok (mkTensor [2] [3; 4]%Z)
  ∧ unweighted_mean Example.table (lower <$> ["cat"; "puppy"])
    = Some (aggregate Example.table ["puppy"; "cat"] ["cat"; "puppy"]).
Proof.
  intros words unique_words.
  assert (is_listing words unique_words) as Hlist.
  { split; [apply (bool_decide_unpack _); vm_compute; exact I|].
    intros w. unfold words, unique_words. rewrite !elem_of_cons. tauto. }
  assert (is_listing ["puppy"; "cat"] ["cat"; "puppy"]) as Hones.
  { split; [apply (bool_decide_unpack _); vm_compute; exact I|].
    intros w. rewrite !elem_of_cons. tauto. }
  assert (∀ us, Forall (λ u, u ∈ ["cat"; "dog"; "puppy"]) us →
                Forall (λ u, is_Some (Vectors.stoi Example.table !! lower u))
                  us) as Hknown.
  { intros us Hus. eapply Forall_impl; [exact Hus|]. intros u.
    rewrite !elem_of_cons, elem_of_nil.
    intros [->|[->|[->|[]]]]; eexists; reflexivity. }
  destruct (aggregate_weighted_mean Example.table words unique_words Hlist)
    as (Htotal & Hagree & _).
  destruct (aggregate_weighted_mean Example.table _ _ Hones)
    as (_ & Hmean & _).
  assert (Forall (λ u, is_Some (Vectors.stoi Example.table !! lower u))
            unique_words) as Hk.
  { apply Hknown.
    repeat (constructor; [rewrite !elem_of_cons; tauto|]). constructor. }
  assert (Forall (λ u, is_Some (Vectors.stoi Example.table !! lower u))
            ["cat"; "puppy"]) as Hk'.
  { apply Hknown.
    repeat (constructor; [rewrite !elem_of_cons; tauto|]). constructor. }
  assert (Forall (λ tc : string * Z, tc.2 = 1%Z)
            (lowered (token_counts ["puppy"; "cat"] ["cat"; "puppy"])))
    as Hone.
  { repeat (constructor; [reflexivity|]). constructor. }
  assert (words ≠ []) as Hne by discriminate.
  assert (["puppy"; "cat"] ≠ []) as Hne' by discriminate.
  split; [exact Hlist|]. split; [reflexivity|]. split; [exact Htotal|].
  split; [reflexivity|]. split; [exact (proj1 (Hagree Hne Hk))|].
  split; [reflexivity|].
  exact (proj2 (Hmean Hne' Hk') int_mul_one Hone).
Defined.

(** ** The further properties at work *)

Lemma Vocab_extend_keeps_witness :
  Vocab.stoi Fixture.vocab !! "dog" = Some 1
  ∧ Vocab.stoi (Vocab.extend Fixture.vocab ["zebra"; "dog"] false) !! "dog"
    = Some 1.
Proof.
  assert (Vocab.stoi Fixture.vocab !! "dog" = Some 1) as Hdog
    by (vm_compute; reflexivity).
  split; [exact Hdog|].
  exact (proj2 (proj2 (Vocab_extend_keeps Fixture.vocab ["zebra"; "dog"] false))
           "dog" 1 Hdog).
Defined.

Lemma Vocab_extend_covers_witness :
  "zebra" ∈ ["zebra"; "dog"]
  ∧ is_Some (Vocab.stoi (Vocab.extend Fixture.vocab ["zebra"; "dog"] false)
             !! "zebra").
Proof.
  assert ("zebra" ∈ ["zebra"; "dog"]) as Hin by left.
  split; [exact Hin|].
  exact (proj1 (Vocab_extend_covers Fixture.vocab ["zebra"; "dog"] false)
           "zebra" Hin).
Defined.

Lemma Vocab_stoi_in_range_witness :
  Vocab.stoi (Vocab.run (Vocab.init Example.counter None 2 ["<pad>"]).1
                [Vocab.Lookup "zebra"]) !! "zebra" = Some 0
  ∧ 0 < VocabMethods.__len__
          (Vocab.run (Vocab.init Example.counter None 2 ["<pad>"]).1
             [Vocab.Lookup "zebra"])
  ∧ NoDup (Vocab.required ["<pad>"])
  ∧ NoDup (Vocab.itos
             (Vocab.run (Vocab.init Example.counter None 2 ["<pad>"]).1
                [Vocab.Lookup "zebra"])).
Proof.
  assert (Vocab.stoi (Vocab.run (Vocab.init Example.counter None 2 ["<pad>"]).1
                        [Vocab.Lookup "zebra"]) !! "zebra" = Some 0) as Hz
    by (vm_compute; reflexivity).
  assert (NoDup (Vocab.required ["<pad>"])) as Hnd.
  { apply (bool_decide_unpack _). vm_compute. exact I. }
  destruct (Vocab_stoi_in_range Example.counter None 2 ["<pad>"]
              [Vocab.Lookup "zebra"]) as [Hrange Hnodup].
  split; [exact Hz|]. split; [exact (Hrange "zebra" 0 Hz)|].
  split; [exact Hnd|exact (Hnodup Hnd)].
Defined.

Lemma Vocab_init_complete_witness :
  ¬ bound_hit (Some 5%Z) ["<pad>"]
      (Vocab.itos (Vocab.init Example.counter (Some 5%Z) 2 ["<pad>"]).1)
  ∧ ("a" ∈ Vocab.itos (Vocab.init Example.counter (Some 5%Z) 2 ["<pad>"]).1
     ↔ "a" ∈ Vocab.required ["<pad>"]
       ∨ (Z.max 2 1 ≤ Counter_getitem Example.counter "a")%Z).
Proof.
  assert (¬ bound_hit (Some 5%Z) ["<pad>"]
            (Vocab.itos (Vocab.init Example.counter (Some 5%Z) 2 ["<pad>"]).1))
    as Hfree.
  { intros Hhit. vm_compute in Hhit. discriminate Hhit. }
  split; [exact Hfree|].
  exact (Vocab_init_complete Example.counter (Some 5%Z) 2 ["<pad>"] Hfree "a").
Defined.

Lemma Vocab_lookup_breaks_eq_witness :
  Vocab.stoi Fixture.vocab !! "zebra" = None
  ∧ VocabMethods.__eq__ Fixture.vocab Fixture.vocab = true
  ∧ VocabMethods.__eq__ (Vocab.stoi_getitem Fixture.vocab "zebra").2
      Fixture.vocab = false
  ∧ VocabMethods.__eq__ Fixture.vocab
      (Vocab.stoi_getitem Fixture.vocab "zebra").2 = false.
Proof.
  assert (Vocab.stoi Fixture.vocab !! "zebra" = None) as Hnew
    by (vm_compute; reflexivity).
  split; [exact Hnew|].
  exact (Vocab_lookup_breaks_eq Fixture.vocab "zebra" Hnew).
Defined.

Lemma Vectors_cache_rows_witness :
  Vectors.cache (H := Example.int_torch) Example.zeros None false Example.lines
  = Ok Example.table
  ∧ 1 < length (Vectors.itos Example.table)
  ∧ 1 < Vectors.dim Example.table
  ∧ ∃ row, Tensor_getitem (Vectors.vectors Example.table) 1 = Ok row
           ∧ shape row = [Vectors.dim Example.table]
           ∧ length (data row) = Vectors.dim Example.table.
Proof.
  assert (1 < length (Vectors.itos Example.table)) as Hi by (simpl; lia).
  split; [exact example_table_loaded|]. split; [exact Hi|].
  exact (proj2 (Vectors_cache_rows (H := Example.int_torch) Example.zeros false Example.lines
                  Example.table example_table_loaded) 1 Hi).
Defined.

Lemma Vectors_cache_no_dimension_witness :
  Forall (λ line, length (Vectors.entries_of (H := Example.int_torch) line) = 1)
    ["400000 300"; "cat 1"]
  ∧ Vectors.cache (H := Example.int_torch) Example.zeros None false
      ["400000 300"; "cat 1"] = Raise TypeError.
Proof.
  assert (Forall
            (λ line, length (Vectors.entries_of (H := Example.int_torch) line) = 1)
            ["400000 300"; "cat 1"]) as Hone.
  { apply Forall_cons. split; [reflexivity|].
    apply Forall_cons. split; [reflexivity|]. apply Forall_nil_2. }
  split; [exact Hone|].
  exact (Vectors_cache_no_dimension (H := Example.int_torch) Example.zeros false _ Hone).
Defined.

Lemma Vectors_cache_tokens_witness :
  Vectors.cache (H := Example.int_torch) Example.zeros None false
    ("3 2" :: Example.lines) = Ok Example.table
  ∧ Vectors.itos Example.table
    = Vectors.word_of <$> kept ("3 2" :: Example.lines)
  ∧ Forall (λ line, length (Vectors.entries_of line)
                    = Vectors.dim Example.table)
      (kept ("3 2" :: Example.lines)).
Proof.
  assert (Vectors.cache (H := Example.int_torch) Example.zeros None false
            ("3 2" :: Example.lines) = Ok Example.table) as Hload
    by reflexivity.
  destruct (Vectors_cache_tokens (H := Example.int_torch) Example.zeros _ _ Hload)
    as (Hitos & Hwidth & _).
  split; [exact Hload|]. split; [exact Hitos|exact Hwidth].
Defined.

Lemma Vectors_cache_last_row_witness :
  Vectors.cache (H := Example.int_torch) Example.zeros None false
    Fixture.lines_dup = Ok Example.table_dup
  ∧ Vectors.stoi Example.table_dup !! "a" = Some 2
  ∧ Vectors.itos Example.table_dup !! 0 = Some "a"
  ∧ Vectors.itos Example.table_dup !! 2 = Some "a"
  ∧ 0 ≤ 2.
Proof.
  assert (Vectors.cache (H := Example.int_torch) Example.zeros None false
            Fixture.lines_dup = Ok Example.table_dup) as Hload
    by reflexivity.
  assert (Vectors.stoi Example.table_dup !! "a" = Some 2) as Hlast
    by reflexivity.
  assert (Vectors.itos Example.table_dup !! 0 = Some "a") as Hfirst
    by reflexivity.
  destruct (proj2 (Vectors_cache_last_row (H := Example.int_torch) Example.zeros false _ _ "a" Hload)
              2 Hlast) as [Hat Hmax].
  split; [exact Hload|]. split; [exact Hlast|]. split; [exact Hfirst|].
  split; [exact Hat|exact (Hmax 0 Hfirst)].
Defined.

Lemma Vectors_cache_bad_number_witness :
  Vectors.entries_of (H := Example.int_torch) "dog 3 x" = ["3"] ++ "x" :: []
  ∧ float (Torch := Example.int_torch) "x" = None
  ∧ Vectors.cache (H := Example.int_torch) Example.zeros None false
      Fixture.lines_bad = Raise (ValueError "x").
Proof.
  assert (Vectors.entries_of (H := Example.int_torch) "dog 3 x"
          = ["3"] ++ "x" :: []) as Hfields by reflexivity.
  assert (float (Torch := Example.int_torch) "x" = None) as Hbad
    by reflexivity.
  split; [exact Hfields|]. split; [exact Hbad|].
  apply (Vectors_cache_bad_number (H := Example.int_torch) Example.zeros
           ["cat 0 0"] "dog 3 x" ["puppy 6 8"]
           (Vectors.mkParsing (H := Example.int_torch) ["cat"] [0; 0]%Z (Some 2))
           ["3"] "x" []).
  - reflexivity.
  - rewrite Hfields. simpl. lia.
  - intros d [= <-]. reflexivity.
  - exact Hfields.
  - apply Forall_cons. split; [by eexists|apply Forall_nil_2].
  - exact Hbad.
Defined.



Lemma GloVe_init_once_witness :
  (GloVe_url !! "50B" = None
   ∧ GloVe_init Fixture.path_join (Fixture.fresh Example.lines) "50B" "300"
       ".vector_cache" Example.zeros
     = (Raise (KeyError "50B"), Fixture.fresh Example.lines))
  ∧ (is_Some (GloVe_url !! "840B")
     ∧ GloVe_init Fixture.path_join (Fixture.fresh Example.lines) "840B" "300"
         ".vector_cache" Example.zeros
       = Vectors_init Fixture.path_join (Fixture.fresh Example.lines)
           (GloVe_name "840B" "300") ".vector_cache" Example.zeros).
Proof.
  assert (GloVe_url !! "50B" = None) as Hnone by (vm_compute; reflexivity).
  assert (is_Some (GloVe_url !! "840B")) as Hsome
    by (eexists; vm_compute; reflexivity).
  split.
  - split; [exact Hnone|].
    exact (proj1 (GloVe_init_once (H := Example.int_torch) Fixture.path_join
                    (Fixture.fresh Example.lines) "50B" "300" ".vector_cache"
                    Example.zeros) Hnone).
  - split; [exact Hsome|].
    exact (proj2 (GloVe_init_once (H := Example.int_torch) Fixture.path_join
                    (Fixture.fresh Example.lines) "840B" "300" ".vector_cache"
                    Example.zeros) Hsome).
Defined.

Lemma closest_tokens_witness :
  closest Example.table (mkTensor [2] [3; 4]%Z) 2
  = Ok [("dog", 0%Z); ("cat", 5%Z)]
  ∧ ["dog"; "cat"] ⊆+ Vectors.itos Example.table
  ∧ ((0 ≤ 2)%Z → length [("dog", 0%Z); ("cat", 5%Z)]
                 = Z.to_nat 2 `min` length (Vectors.itos Example.table)).
Proof.
  assert (closest Example.table (mkTensor [2] [3; 4]%Z) 2
          = Ok [("dog", 0%Z); ("cat", 5%Z)]) as Hres by reflexivity.
  destruct (closest_tokens Example.table _ _ _ Hres) as (Hsub & Hlen & _).
  split; [exact Hres|]. split; [exact Hsub|exact Hlen].
Defined.

Lemma closest_first_witness :
  Vectors.table_ok Example.table ∧ (1 ≤ 1)%Z
  ∧ broadcastable [2] [Vectors.dim Example.table] = true
  ∧ Vectors.itos Example.table !! 1 = Some "dog"
  ∧ ∃ rest, closest Example.table (mkTensor [2] [3; 4]%Z) 1
            = Ok (("dog", dist (mkTensor [2] [3; 4]%Z) (mkTensor [2] [3; 4]%Z))
                  :: rest).
Proof.
  assert (broadcastable [2] [Vectors.dim Example.table] = true) as Hfit
    by reflexivity.
  split; [exact example_table_ok|]. split; [lia|]. split; [exact Hfit|].
  split; [reflexivity|].
  apply (closest_first Example.table
           (mkTensor [2] [3; 4]%Z) 1 1 "dog" (mkTensor [2] [3; 4]%Z)).
  - exact example_table_ok.
  - lia.
  - exact Hfit.
  - intros all _. apply int_ordered.
  - reflexivity.
  - reflexivity.
  - intros [|[|[|i]]] row' Hne Hlt Hrow.
    + injection Hrow as <-. split; reflexivity.
    + congruence.
    + injection Hrow as <-. split; reflexivity.
    + simpl in Hlt. lia.
Defined.

Lemma script_unknown_word_witness :
  Forall (λ w', ∃ near, neighbours Example.table 10 w' = Ok near) ["dog"]
  ∧ Vectors.stoi Example.table !! lower "Bird" = None
  ∧ intersection Example.table 10 (["dog"] ++ "Bird" :: ["cat"])
    = Raise (KeyError (lower "Bird"))
  ∧ aggregate Example.table ["dog"; "Bird"] ([] ++ "Bird" :: ["dog"])
    = Raise (KeyError (lower "Bird")).
Proof.
  assert (Forall (λ w', ∃ near, neighbours Example.table 10 w' = Ok near)
            ["dog"]) as Hpre.
  { apply Forall_cons. split; [by eexists|apply Forall_nil_2]. }
  assert (Vectors.stoi Example.table !! lower "Bird" = None) as Hbird
    by reflexivity.
  destruct (script_unknown_word Example.table 10) as (Hint & Hagg & _).
  split; [exact Hpre|]. split; [exact Hbird|].
  split; [exact (Hint ["dog"] "Bird" ["cat"] Hpre Hbird)|].
  exact (Hagg ["dog"; "Bird"] [] "Bird" ["dog"] (Forall_nil_2 _) Hbird).
Defined.


Lemma load_vectors_rejects_witness :
  Forall (λ a, ∃ v, resolve (pretrained_aliases (Ok Example.table)) a = Ok v)
    [Table Example.table]
  ∧ load_vectors (pretrained_aliases (Ok Example.table)) Builtin_sum
      Fixture.vocab
      (Many ([Table Example.table] ++ Alias "glove.6B.50d" :: []))
    = Raise (ValueError "glove.6B.50d").
Proof.
  assert (Forall
            (λ a, ∃ v, resolve (pretrained_aliases (Ok Example.table)) a = Ok v)
            [Table Example.table]) as Hpre.
  { apply Forall_cons. split; [by eexists|apply Forall_nil_2]. }
  assert (Alias "glove.6B.50d" = Other "glove.6B.50d"
          ∨ (Alias "glove.6B.50d" = Alias "glove.6B.50d"
             ∧ pretrained_aliases (Ok Example.table) !! "glove.6B.50d" = None))
    as Hbad.
  { right. split; [reflexivity|]. apply lookup_singleton_ne. discriminate. }
  split; [exact Hpre|].
  exact (proj1 (load_vectors_rejects (pretrained_aliases (Ok Example.table))
                  Builtin_sum Fixture.vocab [Table Example.table]
                  (Alias "glove.6B.50d") [] "glove.6B.50d" Hpre Hbad)).
Defined.

Lemma set_vectors_rows_witness :
  ∃ t, set_vectors Fixture.vocab (Vectors.stoi Example.table)
         (Tensor_getitem (Vectors.vectors Example.table)) 2 zero_ = Ok t
       ∧ shape t = [VocabMethods.__len__ Fixture.vocab; 2]
       ∧ ∀ i token, Vocab.itos Fixture.vocab !! i = Some token →
           Tensor_getitem t i
           = Ok (mkTensor [2]
                   (set_vectors_row (Vectors.stoi Example.table)
                      (Tensor_getitem (Vectors.vectors Example.table))
                      2 zero_ i token))
           ∧ (Vectors.stoi Example.table !! token = None → zero_ = zero_ →
              Tensor_getitem t i = Ok (mkTensor [2] (replicate 2 zero))).
Proof.
  assert (Vocab.itos Fixture.vocab = ["<unk>"; "dog"; "bird"]) as Hitos
    by (vm_compute; reflexivity).
  assert (Vectors.stoi Example.table !! "<unk>" = None) as Hunk
    by reflexivity.
  assert (Vectors.stoi Example.table !! "dog" = Some 1) as Hdog
    by reflexivity.
  assert (Vectors.stoi Example.table !! "bird" = None) as Hbird
    by reflexivity.
  apply (set_vectors_rows Fixture.vocab (Vectors.stoi Example.table)
           (Tensor_getitem (Vectors.vectors Example.table)) 2 zero_).
  rewrite Hitos. unfold set_vectors_ok.
  intros [|[|[|i]]] token Hi; [| | |discriminate Hi]; injection Hi as <-.
  - rewrite Hunk. split; reflexivity.
  - rewrite Hdog. exists (mkTensor [2] [3; 4]%Z).
    split; [reflexivity|]. split; reflexivity.
  - rewrite Hbird. split; reflexivity.
Defined.
